(** * Closure launching for the CUDA backend of Thrust

    A shallow embedding of
    [thrust/detail/backend/cuda/detail/launch_closure.inl]: the two device
    entry points, the size-directed choice between them, the host-side
    launchers, and the occupancy-driven launch configuration.

    Layout of the development:
    - [CInt]      the C++ integer types the templates are instantiated at,
                  with integral promotion, the usual arithmetic conversions,
                  wrap-around of unsigned arithmetic and undefinedness of
                  signed overflow and of division by zero;
    - [Arch]      the occupancy queries of [arch.h] (an interface, and an
                  instance written after the design document);
    - [Device]    device memory, the execution queue and the host monad;
    - [Launcher]  [closure_launcher_base], [closure_launcher] and the free
                  functions of the file. *)

From Stdlib Require Import ZArith Lia Bool List String.
From stdpp Require Import base option list gmap.

Local Open Scope Z_scope.

(* ===================================================================== *)
(** ** C++ integer types *)
(* ===================================================================== *)

Module CInt.

(** The widths an integral template argument ([Size], [Size1], [Size2],
    [Size3]) can have. *)
Inductive int_width := W8 | W16 | W32 | W64.

Definition bits (w : int_width) : Z :=
  match w with W8 => 8 | W16 => 16 | W32 => 32 | W64 => 64 end.

(** An integral type is a width and a signedness.  [long] and [long long]
    of equal width are not told apart: they hold the same values and the
    conversions below give them the same results. *)
Record int_type := IntType { width : int_width; is_signed : bool }.

Definition signed_char    := IntType W8 true.
Definition unsigned_char  := IntType W8 false.
Definition short          := IntType W16 true.
Definition unsigned_short := IntType W16 false.
Definition int            := IntType W32 true.
Definition unsigned_int   := IntType W32 false.
Definition unsigned_long_long := IntType W64 false.

(** [size_t] of a 64-bit host. *)
Definition size_t := IntType W64 false.

(** [sizeof(T)] in bytes. *)
Definition sizeof_int (t : int_type) : Z := bits (width t) / 8.

Definition modulus (t : int_type) : Z := 2 ^ bits (width t).

Definition min_value (t : int_type) : Z :=
  if is_signed t then - 2 ^ (bits (width t) - 1) else 0.

Definition max_value (t : int_type) : Z :=
  if is_signed t then 2 ^ (bits (width t) - 1) - 1 else 2 ^ bits (width t) - 1.

Definition representable (t : int_type) (v : Z) : Prop :=
  min_value t <= v <= max_value t.

Definition representableb (t : int_type) (v : Z) : bool :=
  (min_value t <=? v) && (v <=? max_value t).

(** Conversion of a value to type [t] (implicit conversion or
    [static_cast]): reduction modulo [2 ^ bits], read in two's complement
    for a signed destination. *)
Definition convert (t : int_type) (v : Z) : Z :=
  let r := v mod modulus t in
  if is_signed t && (max_value t <? r) then r - modulus t else r.

(** Integral promotion: a type narrower than [int] becomes [int]. *)
Definition promote (t : int_type) : int_type :=
  if bits (width t) <? 32 then int else t.

(** The usual arithmetic conversions: the type in which a binary operator
    works on operands of types [a] and [b]. *)
Definition usual_arithmetic_conversions (a b : int_type) : int_type :=
  let a' := promote a in
  let b' := promote b in
  if Bool.eqb (is_signed a') (is_signed b') then
    if bits (width a') <? bits (width b') then b' else a'
  else
    let u := if is_signed a' then b' else a' in
    let s := if is_signed a' then a' else b' in
    if bits (width s) <=? bits (width u) then u else s.

(** The result of an arithmetic operator whose mathematical value is [v],
    in type [t]: unsigned arithmetic wraps around, signed arithmetic that
    leaves the range is undefined. *)
Definition arith_result (t : int_type) (v : Z) : option Z :=
  if is_signed t then (if representableb t v then Some v else None)
  else Some (v mod modulus t).

Definition c_add (ta tb : int_type) (a b : Z) : option Z :=
  let t := usual_arithmetic_conversions ta tb in
  arith_result t (convert t a + convert t b).

Definition c_sub (ta tb : int_type) (a b : Z) : option Z :=
  let t := usual_arithmetic_conversions ta tb in
  arith_result t (convert t a - convert t b).

(** Integer division truncates towards zero; a zero divisor is undefined. *)
Definition c_div (ta tb : int_type) (a b : Z) : option Z :=
  let t := usual_arithmetic_conversions ta tb in
  if convert t b =? 0 then None
  else arith_result t (convert t a ÷ convert t b).

(** Modelled from the spec: [thrust::detail::larger_type] of
    [thrust/detail/type_traits.h], which is not part of the sources at hand.
    The source says of it "promote both arguments to the larger of Size1 &
    Size2": the type of greater [sizeof], the first one when they are of
    equal size. *)
Definition larger_type (t1 t2 : int_type) : int_type :=
  if sizeof_int t1 <? sizeof_int t2 then t2 else t1.

End CInt.

(* ===================================================================== *)
(** ** Occupancy queries ([thrust/detail/backend/cuda/arch.h]) *)
(* ===================================================================== *)

Module Arch.

(** The two values [get_launch_function] can return: the address of one of
    the two [__global__] entry points, instantiated at the closure type. *)
Inductive launch_function_t := entry_by_value | entry_by_pointer.

(** What the launcher asks of [arch.h].  The header is not part of the
    sources at hand, so the launcher is written against this interface:
    [max_active_blocks kernel block_size dynamic_smem_bytes_per_block] and
    [max_blocksize_with_highest_occupancy kernel dynamic_smem_bytes_per_thread],
    both of result type [size_t]. *)
Class ArchQueries := {
  max_active_blocks : launch_function_t -> Z -> Z -> Z;
  max_blocksize_with_highest_occupancy : launch_function_t -> Z -> Z
}.

(** Device limits and kernel footprint, as the design document lists them
    (with the register file and the scheduling granularity its algorithm
    refers to). *)
Record DeviceLimits := {
  max_threads_per_block : Z;
  max_blocks_per_multiprocessor : Z;
  max_threads_per_multiprocessor : Z;
  registers_per_multiprocessor : Z;
  shared_memory_per_multiprocessor : Z;
  multiprocessor_count : Z;
  warp_size : Z
}.

Record KernelFootprint := {
  registers_per_thread : Z;
  static_shared_memory : Z
}.

Section Occupancy.
Variable limits : DeviceLimits.
Variable footprint : launch_function_t -> KernelFootprint.

  (** How many blocks fit when each consumes [per_block] of a resource of
      size [capacity]; a block that consumes nothing is not limited by it. *)
Definition quota (capacity per_block : Z) : Z :=
    if per_block <=? 0 then max_blocks_per_multiprocessor limits
    else capacity / per_block.

  (** Modelled from the spec: the number of blocks that can reside
      concurrently on one multiprocessor (the constraint model of the
      OccupancyCalculator, whose code in [arch.inl] is missing): bounded by
      the device's resident blocks, by its resident threads, by the
      registers of [block_size] threads and by static plus dynamic shared
      memory. *)
Definition resident_blocks_per_multiprocessor
      (kernel : launch_function_t) (block_size dynamic_smem_bytes_per_block : Z) : Z :=
    let fp := footprint kernel in
    Z.min (max_blocks_per_multiprocessor limits)
     (Z.min (quota (max_threads_per_multiprocessor limits) block_size)
       (Z.min (quota (registers_per_multiprocessor limits)
                     (registers_per_thread fp * block_size))
              (quota (shared_memory_per_multiprocessor limits)
                     (static_shared_memory fp + dynamic_smem_bytes_per_block)))).

  (** Modelled from the spec: [arch::max_active_blocks], missing from the
      sources: blocks per multiprocessor times the number of
      multiprocessors. *)
Definition spec_max_active_blocks
      (kernel : launch_function_t) (block_size dynamic_smem_bytes_per_block : Z) : Z :=
    resident_blocks_per_multiprocessor kernel block_size dynamic_smem_bytes_per_block
    * multiprocessor_count limits.

  (** The candidate block sizes: the multiples of the scheduling granularity
      up to the device's maximum number of threads per block. *)
Definition candidate_block_sizes : list Z :=
    map (fun i => Z.of_nat i * warp_size limits)
        (seq 1 (Z.to_nat (max_threads_per_block limits / warp_size limits))).

Definition occupied_threads
      (kernel : launch_function_t) (dynamic_smem_bytes_per_thread block_size : Z) : Z :=
    resident_blocks_per_multiprocessor kernel block_size
      (dynamic_smem_bytes_per_thread * block_size) * block_size.

  (** One step of the search: the candidate replaces the best so far when it
      occupies at least as many threads (candidates come in increasing
      order, so ties go to the larger block size). *)
Definition better (kernel : launch_function_t) (dynamic_smem_bytes_per_thread : Z)
      (best candidate : Z) : Z :=
    if occupied_threads kernel dynamic_smem_bytes_per_thread best
       <=? occupied_threads kernel dynamic_smem_bytes_per_thread candidate
    then candidate else best.

  (** Modelled from the spec: [arch::max_blocksize_with_highest_occupancy],
      missing from the sources: among the candidates, the block size with
      the most occupied threads, the larger one on a tie. *)
Definition spec_max_blocksize_with_highest_occupancy
      (kernel : launch_function_t) (dynamic_smem_bytes_per_thread : Z) : Z :=
    match candidate_block_sizes with
    | [] => 0
    | c :: cs => fold_left (better kernel dynamic_smem_bytes_per_thread) cs c
    end.
End Occupancy.

Definition spec_arch (limits : DeviceLimits)
    (footprint : launch_function_t -> KernelFootprint) : ArchQueries :=
  {| max_active_blocks := spec_max_active_blocks limits footprint;
     max_blocksize_with_highest_occupancy :=
       spec_max_blocksize_with_highest_occupancy limits footprint |}.

End Arch.

(* ===================================================================== *)
(** ** The device: memory, execution queue, host monad *)
(* ===================================================================== *)

Module Device.
Import Arch.

(** What a host call can raise. *)
Inductive error :=
| OutOfDeviceMemory
| InvalidDevicePointer
| DeviceExecutionFault (label : string)
| UndefinedBehaviour.

Inductive result (A : Type) :=
| ok (a : A)
| raise (e : error).
Arguments ok {A} a.
Arguments raise {A} e.

(** The coordinates a device-side invocation can read. *)
Record thread := Thread {
  blockIdx : Z;
  threadIdx : Z;
  gridDim : Z;
  blockDim : Z
}.

(** A closure type: a trivially copyable object with an [operator()].
    [sizeof] is its size in bytes, [to_bytes] its object representation
    (what a raw copy moves), [from_bytes] the object a representation
    denotes, and [call] what one invocation does to the device-visible data
    the closure works on ([None]: the invocation faults). *)
Class NullaryFunction (World F : Type) := {
  sizeof : Z;
  to_bytes : F -> list Byte.byte;
  from_bytes : list Byte.byte -> F;
  call : F -> thread -> World -> option World;
  length_to_bytes : forall f, Z.of_nat (length (to_bytes f)) = sizeof;
  from_to_bytes : forall f, from_bytes (to_bytes f) = f
}.

Section Closure.
Context {World F : Type}.
Context {closure : NullaryFunction World F}.

(** A kernel with its argument: [launch_closure_by_value<<<...>>>(f)] or
    [launch_closure_by_pointer<<<...>>>(p)]. *)
Inductive kernel_call :=
| call_by_value (f : F)
| call_by_pointer (p : Z).

(** One [<<<grid, block, smem>>>] submission. *)
Record submission := Submission {
  grid : Z;
  block : Z;
  smem : Z;
  kernel : kernel_call
}.

(** Work the device queue holds, in submission order. *)
Inductive queue_entry :=
| q_kernel (s : submission)
| q_free (p : Z).

(** Calls the host makes to the device runtime, in program order. *)
Inductive event :=
| ev_malloc (bytes p : Z)
| ev_copy (p : Z) (data : list Byte.byte)
| ev_submit (s : submission)
| ev_synchronize (label : string)
| ev_free (p : Z).

Record device := Dev {
  heap : gmap Z (list Byte.byte);   (* live device allocations, by address *)
  next_address : Z;                 (* the next address the allocator hands out *)
  available : Z;                    (* bytes of device memory left *)
  queue : list queue_entry;         (* submitted, not yet executed *)
  executed : list queue_entry;      (* executed by the device, oldest first *)
  world : World;                    (* the data closures work on *)
  fault : bool;                     (* a latent execution fault *)
  synchronous : bool;               (* the diagnostic mode of synchronize.h *)
  trace : list event                (* host calls so far, oldest first *)
}.

Definition set_heap (h : gmap Z (list Byte.byte)) (d : device) : device :=
  Dev h (next_address d) (available d) (queue d) (executed d) (world d)
      (fault d) (synchronous d) (trace d).
Definition set_allocator (next avail : Z) (d : device) : device :=
  Dev (heap d) next avail (queue d) (executed d) (world d)
      (fault d) (synchronous d) (trace d).
Definition set_queue (q : list queue_entry) (d : device) : device :=
  Dev (heap d) (next_address d) (available d) q (executed d) (world d)
      (fault d) (synchronous d) (trace d).
Definition set_executed (x : list queue_entry) (d : device) : device :=
  Dev (heap d) (next_address d) (available d) (queue d) x (world d)
      (fault d) (synchronous d) (trace d).
Definition set_world (w : World) (d : device) : device :=
  Dev (heap d) (next_address d) (available d) (queue d) (executed d) w
      (fault d) (synchronous d) (trace d).
Definition set_fault (b : bool) (d : device) : device :=
  Dev (heap d) (next_address d) (available d) (queue d) (executed d) (world d)
      b (synchronous d) (trace d).
Definition log (e : event) (d : device) : device :=
  Dev (heap d) (next_address d) (available d) (queue d) (executed d) (world d)
      (fault d) (synchronous d) (trace d ++ [e]).

(** *** Device side *)

(** [launch_closure_by_value]: [f();] *)
Definition launch_closure_by_value (f : F) (t : thread) (w : World) : option World :=
  call f t w.

(** [launch_closure_by_pointer]: [NullaryFunction f_reg = *f; f_reg();]
    where [*f] reads the closure's representation from device memory. *)
Definition launch_closure_by_pointer (mem : gmap Z (list Byte.byte)) (f : Z)
    (t : thread) (w : World) : option World :=
  match from_bytes <$> mem !! f with
  | Some f_reg => call f_reg t w
  | None => None
  end.

(** The invocations of one submission: every thread of every block. *)
Definition threads_of (s : submission) : list thread :=
  flat_map (fun b => map (fun t => Thread b t (grid s) (block s))
                         (seqZ 0 (block s)))
           (seqZ 0 (grid s)).

Definition entry_point (mem : gmap Z (list Byte.byte)) (k : kernel_call)
    : thread -> World -> option World :=
  match k with
  | call_by_value f => launch_closure_by_value f
  | call_by_pointer p => launch_closure_by_pointer mem p
  end.

Definition run_threads (body : thread -> World -> option World)
    (ts : list thread) (w : World) : option World :=
  fold_left (fun ow t => match ow with Some w' => body t w' | None => None end)
            ts (Some w).

Definition run_kernel (mem : gmap Z (list Byte.byte)) (s : submission) (w : World)
    : option World :=
  run_threads (entry_point mem (kernel s)) (threads_of s) w.

(** The device takes one entry off its queue. *)
Definition exec_entry (d : device) (e : queue_entry) : device :=
  let d := set_executed (executed d ++ [e]) d in
  match e with
  | q_kernel s =>
      match run_kernel (heap d) s (world d) with
      | Some w' => set_world w' d
      | None => set_fault true d
      end
  | q_free p =>
      match heap d !! p with
      | Some data =>
          set_allocator (next_address d) (available d + Z.of_nat (length data))
                        (set_heap (delete p (heap d)) d)
      | None => d
      end
  end.

(** The device runs until its queue is empty. *)
Definition drain (d : device) : device :=
  fold_left exec_entry (queue d) (set_queue [] d).

(** The device address a queue entry refers to, if any. *)
Definition address_of (e : queue_entry) : option Z :=
  match e with
  | q_kernel s =>
      match kernel s with
      | call_by_pointer p => Some p
      | call_by_value _ => None
      end
  | q_free p => Some p
  end.

(** The entry point a submitted kernel call goes through. *)
Definition entry_of (k : kernel_call) : launch_function_t :=
  match k with
  | call_by_value _ => entry_by_value
  | call_by_pointer _ => entry_by_pointer
  end.

(** The pending work refers only to addresses the allocator has already
    handed out. *)
Definition queue_allocated (d : device) : bool :=
  forallb (fun e => match address_of e with
                    | Some p => p <? next_address d
                    | None => true
                    end)
          (queue d).

(** *** Host side *)

(** Host code: it reads and changes the device, and returns or raises. *)
Definition host (A : Type) : Type := device -> result A * device.

Definition ret {A} (a : A) : host A := fun d => (ok a, d).

Definition throw {A} (e : error) : host A := fun d => (raise e, d).

Definition bind {A B} (m : host A) (k : A -> host B) : host B :=
  fun d => match m d with
           | (ok a, d') => k a d'
           | (raise e, d') => (raise e, d')
           end.

(** Modelled from the spec: [cuda::malloc<0>] of [malloc.h] (not in the
    sources), the device memory service's
    "allocate(bytes) -> handle | OutOfDeviceMemory": a fresh address, or the
    error when the device has not that many bytes left. *)
Definition malloc (bytes : Z) : host Z := fun d =>
  if bytes <=? available d then
    let p := next_address d in
    (ok p,
     log (ev_malloc bytes p)
       (set_allocator (p + Z.max 1 bytes) (available d - bytes)
          (set_heap (<[p := repeat Byte.x00 (Z.to_nat bytes)]> (heap d)) d)))
  else (raise OutOfDeviceMemory, d).

(** [*f_ptr = f]: assignment through a [device_ptr], a copy of the object
    representation from the host into the allocation at [p]. *)
Definition device_store (p : Z) (data : list Byte.byte) : host unit := fun d =>
  match heap d !! p with
  | Some _ => (ok tt, log (ev_copy p data) (set_heap (<[p := data]> (heap d)) d))
  | None => (raise InvalidDevicePointer, d)
  end.

(** [kernel<<<grid, block, smem>>>(arg)]: the submission joins the queue and
    the host goes on. *)
Definition submit (s : submission) : host unit := fun d =>
  (ok tt, log (ev_submit s) (set_queue (queue d ++ [q_kernel s]) d)).

(** Modelled from the spec: [synchronize_if_enabled] of [synchronize.h] (not
    in the sources), the diagnostic hook "maybe_wait_and_check(label)": a
    no-op unless the debug flag is set; when active it blocks until the
    queue drains and raises on any latent device error, tagged with the
    label. *)
Definition synchronize_if_enabled (label : string) : host unit := fun d =>
  let d := log (ev_synchronize label) d in
  if synchronous d then
    let d' := drain d in
    if fault d' then (raise (DeviceExecutionFault label), d') else (ok tt, d')
  else (ok tt, d).

(** Modelled from the spec: [cuda::free<0>] of [free.h] (not in the
    sources), the device memory service's "free(handle)", which the device
    runtime orders after the work already on the queue. *)
Definition free (p : Z) : host unit := fun d =>
  (ok tt, log (ev_free p) (set_queue (queue d ++ [q_free p]) d)).

End Closure.

Arguments kernel_call F : clear implicits.
Arguments submission F : clear implicits.
Arguments queue_entry F : clear implicits.
Arguments event F : clear implicits.
Arguments device World F : clear implicits.
Arguments host World F A : clear implicits.

End Device.

(* ===================================================================== *)
(** ** The launchers *)
(* ===================================================================== *)

Module Launcher.
Import CInt Arch Device.

Notation "'do' x <- m ; k" := (bind m (fun x => k))
  (at level 10, x name, m at level 100, k at level 200, only parsing).

Section ClosureLauncher.
Context {World F : Type}.
Context {closure : NullaryFunction World F}.
Context {arch : ArchQueries}.

(** What the two definitions of [closure_launcher_base] provide. *)
Record launcher_base := {
  get_launch_function : launch_function_t;
  launch : F -> Z -> Z -> Z -> host World F unit
}.

(** The primary template, [closure_launcher_base<NullaryFunction, true>]:
    the closure is the kernel's argument.  The three geometry arguments are
    cast to [unsigned int]. *)
Definition closure_launcher_base_by_value : launcher_base :=
  {| get_launch_function := entry_by_value;
     launch := fun f num_blocks block_size smem_size =>
       do _ <- submit (Submission (convert unsigned_int num_blocks)
                                  (convert unsigned_int block_size)
                                  (convert unsigned_int smem_size)
                                  (call_by_value f));
       synchronize_if_enabled "launch_closure_by_value" |}.

(** The specialisation [closure_launcher_base<NullaryFunction, false>]: the
    closure goes through a device allocation. *)
Definition closure_launcher_base_by_pointer : launcher_base :=
  {| get_launch_function := entry_by_pointer;
     launch := fun f num_blocks block_size smem_size =>
       (* allocate device memory for the argument *)
       do temp_ptr <- malloc (sizeof (F := F));
       (* cast to NullaryFunction * *)
       let f_ptr := temp_ptr in
       (* copy *)
       do _ <- device_store f_ptr (to_bytes f);
       (* launch *)
       do _ <- submit (Submission (convert unsigned_int num_blocks)
                                  (convert unsigned_int block_size)
                                  (convert unsigned_int smem_size)
                                  (call_by_pointer f_ptr));
       do _ <- synchronize_if_enabled "launch_closure_by_pointer";
       (* free device memory *)
       free f_ptr |}.

(** [closure_launcher_base<NullaryFunction, launch_by_value>]: which of the
    two definitions a value of the [bool] template parameter selects. *)
Definition closure_launcher_base (launch_by_value : bool) : launcher_base :=
  if launch_by_value then closure_launcher_base_by_value
  else closure_launcher_base_by_pointer.

(** The parameter's default: [sizeof(NullaryFunction) <= 256]. *)
Definition launch_by_value : bool := sizeof (F := F) <=? 256.

(** [closure_launcher<NullaryFunction>::super_t]. *)
Definition super_t : launcher_base := closure_launcher_base launch_by_value.

(** [closure_launcher::block_size_with_maximal_occupancy] *)
Definition block_size_with_maximal_occupancy (dynamic_smem_bytes_per_thread : Z) : Z :=
  max_blocksize_with_highest_occupancy (get_launch_function super_t)
    dynamic_smem_bytes_per_thread.

(** The three operators of [( n + (block_size - 1) ) / block_size], each in
    the type the usual arithmetic conversions give it; the literal [1] is an
    [int]. *)
Definition type_of_decrement (Size2 : int_type) : int_type :=
  usual_arithmetic_conversions Size2 int.
Definition type_of_sum (Size1 Size2 : int_type) : int_type :=
  usual_arithmetic_conversions Size1 (type_of_decrement Size2).
Definition type_of_quotient (Size1 Size2 : int_type) : int_type :=
  usual_arithmetic_conversions (type_of_sum Size1 Size2) Size2.

Definition ceiling_division (Size1 Size2 : int_type) (n block_size : Z) : option Z :=
  d ← c_sub Size2 int block_size 1;
  s ← c_add Size1 (type_of_decrement Size2) n d;
  c_div (type_of_sum Size1 Size2) Size2 s block_size.

(** [closure_launcher::num_blocks_with_maximal_occupancy]; [None] when the
    arithmetic has no defined result. *)
Definition num_blocks_with_maximal_occupancy (Size1 Size2 : int_type)
    (n block_size dynamic_smem_bytes_per_block : Z) : option Z :=
  let max_blocks :=
    max_active_blocks (get_launch_function super_t)
      (convert size_t block_size) dynamic_smem_bytes_per_block in
  let large_integer := larger_type Size1 Size2 in
  (* promote both arguments to the larger of Size1 & Size2 *)
  q ← ceiling_division Size1 Size2 n block_size;
  let result := Z.min (convert large_integer max_blocks)
                      (convert large_integer q) in
  Some (convert size_t result).

(** [closure_launcher::configuration_with_maximal_occupancy]: the pair
    [(num_blocks, block_size)]. *)
Definition configuration_with_maximal_occupancy (Size : int_type) (n : Z)
    : option (Z * Z) :=
  let block_size := block_size_with_maximal_occupancy 0 in
  num_blocks ← num_blocks_with_maximal_occupancy Size size_t n block_size 0;
  Some (num_blocks, block_size).

(** [closure_launcher::launch(f, n)] *)
Definition launch_n (Size : int_type) (f : F) (n : Z) : host World F unit :=
  match configuration_with_maximal_occupancy Size n with
  | Some config => launch super_t f (fst config) (snd config) 0
  | None => throw UndefinedBehaviour
  end.

(** [closure_launcher::launch(f, num_blocks, block_size, smem_size)] *)
Definition launch_geometry (f : F) (num_blocks block_size smem_size : Z)
    : host World F unit :=
  launch super_t f num_blocks block_size smem_size.

(** The free functions of the file.  The three overloads of [launch_closure]
    get three names. *)
Definition launch_closure (Size : int_type) (f : F) (n : Z) : host World F unit :=
  launch_n Size f n.

Definition launch_closure_smem (f : F) (num_blocks block_size smem_size : Z)
    : host World F unit :=
  launch_geometry f num_blocks block_size smem_size.

Definition launch_closure_blocks (f : F) (num_blocks block_size : Z)
    : host World F unit :=
  launch_closure_smem f num_blocks block_size 0.

End ClosureLauncher.

Arguments launcher_base World F : clear implicits.

End Launcher.

(* ===================================================================== *)
(** ** Sample closures and devices *)
(* ===================================================================== *)

Module Samples.
Import CInt Arch Device Launcher.

(** A closure in the manner of [fill]: it captures one byte and every
    invocation stores it at its global thread index of the output range.  An
    index outside the range is an execution fault. *)
Definition fill_call (value : Byte.byte) (t : thread) (out : list Byte.byte)
    : option (list Byte.byte) :=
  let i := Z.to_nat (blockIdx t * blockDim t + threadIdx t) in
  if (i <? length out)%nat then Some (<[i := value]> out) else None.

(** The same closure carrying [padding] further bytes of captured state, so
    that its size is [1 + padding]. *)
Definition fill (padding : nat) : NullaryFunction (list Byte.byte) Byte.byte.
Proof.
  refine {| sizeof := 1 + Z.of_nat padding;
            to_bytes := fun v => v :: repeat Byte.x00 padding;
            from_bytes := fun l => hd Byte.x00 l;
            call := fill_call |}.
  - abstract (intros f; cbn [length]; rewrite repeat_length; lia).
  - abstract (intros f; reflexivity).
Defined.

(** The device of the design document's scenario: 1024 threads per block,
    32 resident blocks per multiprocessor, 8 multiprocessors; a kernel of
    32 registers per thread and no shared memory. *)
Definition scenario_limits : DeviceLimits :=
  {| max_threads_per_block := 1024;
     max_blocks_per_multiprocessor := 32;
     max_threads_per_multiprocessor := 2048;
     registers_per_multiprocessor := 65536;
     shared_memory_per_multiprocessor := 49152;
     multiprocessor_count := 8;
     warp_size := 32 |}.

Definition scenario_footprint (_ : launch_function_t) : KernelFootprint :=
  {| registers_per_thread := 32; static_shared_memory := 0 |}.

Definition scenario_arch : ArchQueries :=
  spec_arch scenario_limits scenario_footprint.

(** A second view of the scenario's device and kernel: it differs on the
    entry point the closure does not use. *)
Definition scenario_arch_again : ArchQueries :=
  spec_arch scenario_limits
    (fun kernel =>
       match kernel with
       | entry_by_value => scenario_footprint entry_by_value
       | entry_by_pointer =>
           {| registers_per_thread := 63; static_shared_memory := 1024 |}
       end).

(** A device with nothing allocated and nothing queued. *)
Definition idle_device {F : Type} (memory : Z) (diagnostic : bool)
    (out : list Byte.byte) : device (list Byte.byte) F :=
  {| heap := ∅; next_address := 4096; available := memory;
     queue := []; executed := []; world := out; fault := false;
     synchronous := diagnostic; trace := [] |}.

End Samples.

(* ===================================================================== *)
(** ** Facts about the integer types *)
(* ===================================================================== *)

Module CIntFacts.
Import CInt.

(** Replace the bounds of a known type by their values. *)
Ltac eval_bounds :=
  repeat match goal with
  | |- context [modulus (IntType ?w ?s)] =>
      let v := eval vm_compute in (modulus (IntType w s)) in
      change (modulus (IntType w s)) with v
  | |- context [max_value (IntType ?w ?s)] =>
      let v := eval vm_compute in (max_value (IntType w s)) in
      change (max_value (IntType w s)) with v
  | |- context [min_value (IntType ?w ?s)] =>
      let v := eval vm_compute in (min_value (IntType w s)) in
      change (min_value (IntType w s)) with v
  | H : context [max_value (IntType ?w ?s)] |- _ =>
      let v := eval vm_compute in (max_value (IntType w s)) in
      change (max_value (IntType w s)) with v in H
  | H : context [min_value (IntType ?w ?s)] |- _ =>
      let v := eval vm_compute in (min_value (IntType w s)) in
      change (min_value (IntType w s)) with v in H
  end.

Ltac by_cases_on t := destruct t as [[] []].

Lemma min_value_nonpos t : min_value t <= 0.
Proof. by_cases_on t; vm_compute; congruence. Qed.

Lemma max_value_ge_127 t : 127 <= max_value t.
Proof. by_cases_on t; vm_compute; congruence. Qed.

Lemma modulus_above_max t : max_value t < modulus t.
Proof. by_cases_on t; vm_compute; congruence. Qed.

Lemma representableb_spec t v : representableb t v = true <-> representable t v.
Proof. unfold representableb, representable. rewrite andb_true_iff. lia. Qed.

Lemma nonneg_representable t v : 0 <= v <= max_value t -> representable t v.
Proof. pose proof (min_value_nonpos t). unfold representable. lia. Qed.

(** A value the destination type can hold is unchanged by the conversion. *)
Lemma convert_representable t v : representable t v -> convert t v = v.
Proof.
  unfold representable, convert. intros Hv.
  by_cases_on t; cbn [is_signed andb]; eval_bounds;
    repeat match goal with
           | |- context [?a <? ?b] => destruct (Z.ltb_spec a b)
           end; Z.div_mod_to_equations; lia.
Qed.

(** The conversion always lands in the destination type. *)
Lemma convert_in_range t v : representable t (convert t v).
Proof.
  unfold representable, convert.
  by_cases_on t; cbn [is_signed andb]; eval_bounds;
    repeat match goal with
           | |- context [?a <? ?b] => destruct (Z.ltb_spec a b)
           end; Z.div_mod_to_equations; lia.
Qed.

(** An operator whose mathematical result the type can hold returns it. *)
Lemma arith_result_representable t v :
  representable t v -> arith_result t v = Some v.
Proof.
  intros Hv. unfold arith_result.
  destruct (is_signed t) eqn:Hs.
  - apply representableb_spec in Hv. now rewrite Hv.
  - f_equal. apply Z.mod_small.
    pose proof (modulus_above_max t).
    unfold representable, min_value in Hv. rewrite Hs in Hv. lia.
Qed.

(** Signed arithmetic that leaves the range has no result. *)
Lemma arith_result_signed_overflow t v :
  is_signed t = true -> ~ representable t v -> arith_result t v = None.
Proof.
  intros Hs Hv. unfold arith_result. rewrite Hs.
  destruct (representableb t v) eqn:E; [|reflexivity].
  apply representableb_spec in E. contradiction.
Qed.

(** The usual arithmetic conversions lose no non-negative value of either
    operand. *)
Lemma max_value_conversions_l a b :
  max_value a <= max_value (usual_arithmetic_conversions a b).
Proof. by_cases_on a; by_cases_on b; vm_compute; congruence. Qed.

Lemma max_value_conversions_r a b :
  max_value b <= max_value (usual_arithmetic_conversions a b).
Proof. by_cases_on a; by_cases_on b; vm_compute; congruence. Qed.



(** A signed operand type that the conversions keep holds every value of
    it. *)
Lemma min_value_conversions_signed a b :
  is_signed (usual_arithmetic_conversions a b) = true ->
  min_value (usual_arithmetic_conversions a b) <= min_value a.
Proof. by_cases_on a; by_cases_on b; vm_compute; congruence. Qed.

Lemma max_value_larger_l a b : max_value a <= max_value (larger_type a b).
Proof. by_cases_on a; by_cases_on b; vm_compute; congruence. Qed.


Lemma max_value_size_t t : max_value t <= max_value size_t.
Proof. by_cases_on t; vm_compute; congruence. Qed.

(** Whatever an arithmetic operator returns lies in its type. *)
Lemma arith_result_in_range t v r :
  arith_result t v = Some r -> representable t r.
Proof.
  unfold arith_result. destruct (is_signed t) eqn:Hs.
  - destruct (representableb t v) eqn:E; [|discriminate].
    intros [= <-]. now apply representableb_spec.
  - intros [= <-]. unfold representable.
    by_cases_on t; try discriminate Hs; eval_bounds;
      Z.div_mod_to_equations; lia.
Qed.

Lemma c_add_in_range ta tb a b r :
  c_add ta tb a b = Some r ->
  representable (usual_arithmetic_conversions ta tb) r.
Proof. apply arith_result_in_range. Qed.

End CIntFacts.

(* ===================================================================== *)
(** ** The ceiling division of [num_blocks_with_maximal_occupancy] *)
(* ===================================================================== *)

Module CeilingFacts.
Import CInt CIntFacts Arch Device Launcher.

Lemma c_sub_exact ta tb a b :
  let t := usual_arithmetic_conversions ta tb in
  representable t a -> representable t b -> representable t (a - b) ->
  c_sub ta tb a b = Some (a - b).
Proof.
  intros t Ha Hb Hr. unfold c_sub. fold t.
  rewrite !convert_representable by assumption.
  now apply arith_result_representable.
Qed.

Lemma c_add_exact ta tb a b :
  let t := usual_arithmetic_conversions ta tb in
  representable t a -> representable t b -> representable t (a + b) ->
  c_add ta tb a b = Some (a + b).
Proof.
  intros t Ha Hb Hr. unfold c_add. fold t.
  rewrite !convert_representable by assumption.
  now apply arith_result_representable.
Qed.

Lemma c_div_exact ta tb a b :
  let t := usual_arithmetic_conversions ta tb in
  representable t a -> representable t b -> b <> 0 ->
  representable t (a ÷ b) ->
  c_div ta tb a b = Some (a ÷ b).
Proof.
  intros t Ha Hb Hnz Hr. unfold c_div. fold t.
  rewrite !convert_representable by assumption.
  destruct (Z.eqb_spec b 0); [contradiction|].
  now apply arith_result_representable.
Qed.

(** A zero divisor leaves the division without a result, whatever the
    types and the dividend. *)
Lemma c_div_by_zero ta tb a : c_div ta tb a 0 = None.
Proof.
  unfold c_div.
  rewrite (convert_representable _ 0).
  - reflexivity.
  - apply nonneg_representable. pose proof (max_value_ge_127
      (usual_arithmetic_conversions ta tb)). lia.
Qed.

(** The type of the sum already absorbs [Size2]: the division works in the
    same type. *)
Lemma type_of_quotient_is_type_of_sum Size1 Size2 :
  type_of_quotient Size1 Size2 = type_of_sum Size1 Size2.
Proof. by_cases_on Size1; by_cases_on Size2; reflexivity. Qed.

Lemma max_value_decrement Size2 :
  max_value Size2 <= max_value (type_of_decrement Size2).
Proof. apply max_value_conversions_l. Qed.

Lemma max_value_sum_l Size1 Size2 :
  max_value Size1 <= max_value (type_of_sum Size1 Size2).
Proof. apply max_value_conversions_l. Qed.

Lemma max_value_sum_r Size1 Size2 :
  max_value Size2 <= max_value (type_of_sum Size1 Size2).
Proof.
  etransitivity; [apply max_value_decrement|].
  apply max_value_conversions_r.
Qed.

(** Truncating division by a positive divisor does not move away from
    zero. *)
Lemma quot_between a b :
  0 < b -> (0 <= a -> 0 <= a ÷ b <= a) /\ (a <= 0 -> a <= a ÷ b <= 0).
Proof. intros Hb. Z.quot_rem_to_equations. nia. Qed.

(** [(n + (b - 1)) / b] is the ceiling of [n / b]: the least multiple count
    that covers [n]. *)
Lemma ceiling_covers n b :
  0 < b -> n <= (n + (b - 1)) / b * b < n + b.
Proof. intros Hb. Z.div_mod_to_equations. nia. Qed.

Lemma ceiling_le_dividend n b :
  0 <= n -> 0 < b -> 0 <= (n + (b - 1)) / b <= n.
Proof. intros Hn Hb. Z.div_mod_to_equations. nia. Qed.

(** When the sum [n + (block_size - 1)] fits the type it is computed in,
    the expression of the source is the ceiling division. *)
Lemma ceiling_division_exact Size1 Size2 n block_size :
  representable Size1 n -> 0 <= n ->
  representable Size2 block_size -> 0 < block_size ->
  n + (block_size - 1) <= max_value (type_of_sum Size1 Size2) ->
  ceiling_division Size1 Size2 n block_size
  = Some ((n + (block_size - 1)) / block_size).
Proof.
  intros [_ Hn] Hn0 [_ Hb] Hb0 Hsum.
  pose proof (max_value_decrement Size2) as M1.
  pose proof (max_value_sum_l Size1 Size2) as M2.
  pose proof (max_value_sum_r Size1 Size2) as M3.
  pose proof (max_value_conversions_r Size1 (type_of_decrement Size2)) as M4.
  fold (type_of_sum Size1 Size2) in M4.
  unfold ceiling_division.
  rewrite c_sub_exact; cycle 1.
  { apply nonneg_representable. fold (type_of_decrement Size2). lia. }
  { apply nonneg_representable.
    pose proof (max_value_ge_127 (usual_arithmetic_conversions Size2 int)). lia. }
  { apply nonneg_representable. fold (type_of_decrement Size2). lia. }
  cbn [mbind option_bind].
  rewrite c_add_exact; cycle 1.
  { apply nonneg_representable. fold (type_of_sum Size1 Size2). lia. }
  { apply nonneg_representable. fold (type_of_sum Size1 Size2). lia. }
  { apply nonneg_representable. fold (type_of_sum Size1 Size2). lia. }
  cbn [mbind option_bind].
  pose proof (proj1 (quot_between (n + (block_size - 1)) block_size Hb0)
                ltac:(lia)) as Hq.
  rewrite c_div_exact; cycle 1.
  { apply nonneg_representable. fold (type_of_quotient Size1 Size2).
    rewrite type_of_quotient_is_type_of_sum. lia. }
  { apply nonneg_representable. fold (type_of_quotient Size1 Size2).
    rewrite type_of_quotient_is_type_of_sum. lia. }
  { lia. }
  { apply nonneg_representable. fold (type_of_quotient Size1 Size2).
    rewrite type_of_quotient_is_type_of_sum. lia. }
  f_equal. apply Z.quot_div_nonneg; lia.
Qed.

(** With a zero block size the expression has no result. *)
Lemma ceiling_division_by_zero Size1 Size2 n :
  ceiling_division Size1 Size2 n 0 = None.
Proof.
  unfold ceiling_division.
  destruct (c_sub Size2 int 0 1) as [d|]; [|reflexivity].
  cbn [mbind option_bind].
  destruct (c_add Size1 (type_of_decrement Size2) n d) as [s|]; [|reflexivity].
  cbn [mbind option_bind]. apply c_div_by_zero.
Qed.

(** With a positive block size the subtraction is always defined. *)
Lemma decrement_defined Size2 block_size :
  representable Size2 block_size -> 0 < block_size ->
  c_sub Size2 int block_size 1 = Some (block_size - 1).
Proof.
  intros [_ Hb] Hb0.
  pose proof (max_value_decrement Size2) as M1.
  apply c_sub_exact; apply nonneg_representable;
    fold (type_of_decrement Size2); lia.
Qed.

(** With a positive block size the division is defined on every dividend
    the addition can produce. *)
Lemma quotient_defined Size1 Size2 s block_size :
  representable Size2 block_size -> 0 < block_size ->
  representable (type_of_sum Size1 Size2) s ->
  c_div (type_of_sum Size1 Size2) Size2 s block_size = Some (s ÷ block_size).
Proof.
  intros [_ Hb] Hb0 Hs.
  pose proof (max_value_sum_r Size1 Size2) as M3.
  apply c_div_exact; fold (type_of_quotient Size1 Size2);
    rewrite ?type_of_quotient_is_type_of_sum.
  - assumption.
  - apply nonneg_representable. lia.
  - lia.
  - destruct Hs as [Hlo Hhi].
    pose proof (min_value_nonpos (type_of_sum Size1 Size2)).
    pose proof (max_value_ge_127 (type_of_sum Size1 Size2)).
    destruct (quot_between s block_size Hb0) as [Hp Hn].
    unfold representable.
    destruct (Z.le_gt_cases 0 s); [specialize (Hp ltac:(lia))|
                                   specialize (Hn ltac:(lia))]; lia.
Qed.

End CeilingFacts.

(* ===================================================================== *)
(** ** Facts about the occupancy model *)
(* ===================================================================== *)

Module ArchFacts.
Import Arch.

Section Search.
Variable limits : DeviceLimits.
Variable footprint : launch_function_t -> KernelFootprint.
Variable kernel : launch_function_t.
Variable dynamic_smem_bytes_per_thread : Z.

Lemma better_chooses best candidate :
  better limits footprint kernel dynamic_smem_bytes_per_thread best candidate = best
  \/ better limits footprint kernel dynamic_smem_bytes_per_thread best candidate
     = candidate.
Proof. unfold better. destruct (_ <=? _); auto. Qed.

(** The search returns one of the block sizes it was given. *)
Lemma search_returns_candidate cs c :
  In (fold_left (better limits footprint kernel dynamic_smem_bytes_per_thread) cs c)
     (c :: cs).
Proof.
  revert c. induction cs as [|x cs IH]; intros c; cbn [fold_left].
  - now left.
  - destruct (IH (better limits footprint kernel dynamic_smem_bytes_per_thread c x))
      as [H|H].
    + rewrite <- H. destruct (better_chooses c x) as [->| ->]; cbn; auto.
    + right. right. exact H.
Qed.

(** Every candidate is a positive multiple of the granularity within the
    device's limit. *)
Lemma candidate_is_multiple c :
  0 < warp_size limits ->
  In c (candidate_block_sizes limits) ->
  exists k, 0 < k /\ c = k * warp_size limits /\ c <= max_threads_per_block limits.
Proof.
  intros Hw Hin. unfold candidate_block_sizes in Hin.
  apply in_map_iff in Hin as (i & <- & Hi). apply in_seq in Hi.
  exists (Z.of_nat i). split; [lia|]. split; [reflexivity|].
  assert (Hle : Z.of_nat i <= max_threads_per_block limits / warp_size limits) by lia.
  pose proof (Z.mul_div_le (max_threads_per_block limits) (warp_size limits) Hw).
  nia.
Qed.

Lemma candidates_exist :
  0 < warp_size limits <= max_threads_per_block limits ->
  candidate_block_sizes limits <> [].
Proof.
  intros [Hw Hm]. unfold candidate_block_sizes.
  assert (1 <= max_threads_per_block limits / warp_size limits).
  { apply Z.div_le_lower_bound; lia. }
  destruct (Z.to_nat (max_threads_per_block limits / warp_size limits)) eqn:E;
    [lia | discriminate].
Qed.

(** On a device whose granularity is positive and within the block limit,
    the block size of the model is a positive multiple of the granularity
    within that limit. *)
Lemma spec_block_size_valid :
  0 < warp_size limits <= max_threads_per_block limits ->
  let block_size :=
    spec_max_blocksize_with_highest_occupancy limits footprint kernel
      dynamic_smem_bytes_per_thread in
  0 < block_size <= max_threads_per_block limits
  /\ exists k, 0 < k /\ block_size = k * warp_size limits.
Proof.
  intros Hdev block_size. subst block_size.
  unfold spec_max_blocksize_with_highest_occupancy.
  pose proof (candidates_exist Hdev) as Hne.
  destruct (candidate_block_sizes limits) as [|c cs] eqn:E; [congruence|].
  pose proof (search_returns_candidate cs c) as Hin.
  rewrite <- E in Hin.
  apply candidate_is_multiple in Hin as (k & Hk & -> & Hle); [|lia].
  split; [nia|]. exists k. split; [assumption | reflexivity].
Qed.

End Search.
End ArchFacts.

(* ===================================================================== *)
(** ** The launch configuration *)
(* ===================================================================== *)

Import CInt CIntFacts CeilingFacts Arch ArchFacts Device Launcher Samples.

(** Close a goal about known numbers by evaluation. *)
Ltac conjuncts := repeat match goal with |- _ /\ _ => split end.
Ltac by_evaluation :=
  vm_compute; conjuncts; first [reflexivity | discriminate | congruence].

Section NumBlocks.
Context {World F : Type}.
Context {closure : NullaryFunction World F}.
Context {arch : ArchQueries}.

(** The value of [num_blocks_with_maximal_occupancy] when no step of its
    arithmetic leaves the type it is carried out in. *)
Lemma num_blocks_exact Size1 Size2 n block_size smem :
  representable Size1 n -> 0 <= n ->
  representable Size2 block_size -> 0 < block_size ->
  n + (block_size - 1) <= max_value (type_of_sum Size1 Size2) ->
  let max_blocks :=
    max_active_blocks (get_launch_function super_t)
      (convert size_t block_size) smem in
  0 <= max_blocks <= max_value (larger_type Size1 Size2) ->
  num_blocks_with_maximal_occupancy Size1 Size2 n block_size smem
  = Some (Z.min max_blocks ((n + (block_size - 1)) / block_size)).
Proof.
  intros Hn Hn0 Hb Hb0 Hsum max_blocks Hmax.
  unfold num_blocks_with_maximal_occupancy. fold max_blocks.
  rewrite ceiling_division_exact by assumption.
  cbn [mbind option_bind]. f_equal.
  pose proof (ceiling_le_dividend n block_size Hn0 Hb0) as Hq.
  pose proof (max_value_larger_l Size1 Size2) as ML.
  pose proof (max_value_size_t (larger_type Size1 Size2)) as MS.
  destruct Hn as [_ Hn].
  rewrite (convert_representable _ max_blocks)
    by (apply nonneg_representable; lia).
  rewrite (convert_representable (larger_type Size1 Size2))
    by (apply nonneg_representable; lia).
  apply convert_representable, nonneg_representable. lia.
Qed.

(** An empty problem gets no block, on every device and for every positive
    block size: the ceiling of [0 / block_size] is 0. *)
Lemma num_blocks_of_empty_problem Size1 Size2 block_size smem :
  representable Size2 block_size -> 0 < block_size ->
  0 <= max_active_blocks (get_launch_function super_t)
         (convert size_t block_size) smem
    <= max_value (larger_type Size1 Size2) ->
  num_blocks_with_maximal_occupancy Size1 Size2 0 block_size smem = Some 0.
Proof.
  intros Hb Hb0 Hmax.
  pose proof (max_value_sum_r Size1 Size2) as M.
  rewrite num_blocks_exact; try assumption; try lia.
  - rewrite (Z.div_small (0 + (block_size - 1)) block_size) by lia.
    f_equal. lia.
  - apply nonneg_representable. pose proof (max_value_ge_127 Size1). lia.
  - destruct Hb. lia.
Qed.

End NumBlocks.

Section NumBlocksClaims.
Context {World F : Type}.
Context {closure : NullaryFunction World F}.
Context {arch : ArchQueries}.

(** C2, as amended.  For a problem size [n >= 0] and a positive
    [block_size], when the sum [n + (block_size - 1)] fits the type the
    source computes it in and [max_active_blocks] fits [large_integer],
    [num_blocks_with_maximal_occupancy] returns the minimum of
    [max_active_blocks] and the ceiling of [n / block_size]; so the result
    times [block_size] covers [n], or else the result is
    [max_active_blocks]. *)
Theorem C2_num_blocks_is_clamped_ceiling Size1 Size2 n block_size smem :
  representable Size1 n -> 0 <= n ->
  representable Size2 block_size -> 0 < block_size ->
  n + (block_size - 1) <= max_value (type_of_sum Size1 Size2) ->
  let max_blocks :=
    max_active_blocks (get_launch_function super_t)
      (convert size_t block_size) smem in
  let ceiling := (n + (block_size - 1)) / block_size in
  0 <= max_blocks <= max_value (larger_type Size1 Size2) ->
  n <= ceiling * block_size < n + block_size
  /\ num_blocks_with_maximal_occupancy Size1 Size2 n block_size smem
     = Some (Z.min max_blocks ceiling)
  /\ (n <= Z.min max_blocks ceiling * block_size
      \/ Z.min max_blocks ceiling = max_blocks).
Proof.
  intros Hn Hn0 Hb Hb0 Hsum max_blocks ceiling Hmax.
  pose proof (ceiling_covers n block_size Hb0) as Hc. fold ceiling in Hc.
  split; [exact Hc|]. split.
  - now apply num_blocks_exact.
  - destruct (Z.min_spec max_blocks ceiling) as [[_ ->]|[_ ->]]; [now right|].
    left. lia.
Qed.


(** C10, as amended.  [num_blocks_with_maximal_occupancy] has no guard
    against a zero [block_size]: with [block_size = 0] it has no defined
    result, whatever the types and the other arguments, so a defined result
    implies [block_size <> 0].  With [block_size > 0] the subtraction
    [block_size - 1] is defined, the division is defined on every value the
    sum can take, and the function has a defined result exactly when the
    addition [n + (block_size - 1)] has one. *)
Theorem C10_division_needs_positive_block_size Size1 Size2 :
  (forall n smem,
     num_blocks_with_maximal_occupancy Size1 Size2 n 0 smem = None)
  /\ (forall n block_size smem result,
        num_blocks_with_maximal_occupancy Size1 Size2 n block_size smem
        = Some result ->
        block_size <> 0)
  /\ (forall block_size,
        representable Size2 block_size -> 0 < block_size ->
        c_sub Size2 int block_size 1 = Some (block_size - 1)
        /\ (forall s, representable (type_of_sum Size1 Size2) s ->
             c_div (type_of_sum Size1 Size2) Size2 s block_size
             = Some (s ÷ block_size))
        /\ (forall n smem,
             num_blocks_with_maximal_occupancy Size1 Size2 n block_size smem
             = None
             <-> c_add Size1 (type_of_decrement Size2) n (block_size - 1)
                 = None)).
Proof.
  assert (Hzero : forall n smem,
    num_blocks_with_maximal_occupancy Size1 Size2 n 0 smem = None).
  { intros n smem. unfold num_blocks_with_maximal_occupancy.
    now rewrite ceiling_division_by_zero. }
  split; [exact Hzero|]. split.
  - intros n block_size smem result Hr ->. now rewrite Hzero in Hr.
  - intros block_size Hb Hb0. split; [|split].
    + now apply decrement_defined.
    + intros s Hs. now apply quotient_defined.
    + intros n smem.
      unfold num_blocks_with_maximal_occupancy, ceiling_division.
      rewrite decrement_defined by assumption. cbn [mbind option_bind].
      destruct (c_add Size1 (type_of_decrement Size2) n (block_size - 1))
        as [s|] eqn:E; cbn [mbind option_bind]; [|tauto].
      rewrite quotient_defined; try assumption.
      * cbn [mbind option_bind]. split; discriminate.
      * exact (c_add_in_range _ _ _ _ _ E).
Qed.

End NumBlocksClaims.

(** C2 at the scenario of the design document: a million work items in
    blocks of 256, clamped to the 64 blocks the device holds. *)
Lemma C2_witness :
  num_blocks_with_maximal_occupancy (closure := fill 0) (arch := scenario_arch)
    int size_t 1000000 256 0 = Some 64.
Proof.
  refine (proj1 (proj2 (C2_num_blocks_is_clamped_ceiling
            (closure := fill 0) (arch := scenario_arch)
            int size_t 1000000 256 0 _ _ _ _ _ _))); by_evaluation.
Defined.

(** C2 as stated fails where the sum wraps around: with [unsigned int]
    arguments, [n = 4294967295] and [block_size = 256] the function returns
    0, which is neither the clamped ceiling (64) nor enough blocks to cover
    [n]. *)
Lemma C2_counterexample :
  representable unsigned_int 4294967295
  /\ representable unsigned_int 256
  /\ num_blocks_with_maximal_occupancy (closure := fill 0) (arch := scenario_arch)
       unsigned_int unsigned_int 4294967295 256 0 = Some 0
  /\ max_active_blocks (ArchQueries := scenario_arch)
       (get_launch_function (super_t (closure := fill 0))) 256 0 = 64
  /\ Z.min 64 ((4294967295 + (256 - 1)) / 256) = 64
  /\ ~ (4294967295 <= 0 * 256 \/ 0 = 64).
Proof.
  conjuncts; try by_evaluation.
  intros [H|H]; revert H; by_evaluation.
Qed.



(** C10 for a signed problem size and a [size_t] block size of 256. *)
Lemma C10_witness :
  c_sub size_t int 256 1 = Some 255
  /\ c_div (type_of_sum int size_t) size_t 1000255 256 = Some 3907.
Proof.
  destruct (C10_division_needs_positive_block_size
              (closure := fill 0) (arch := scenario_arch) int size_t)
    as (_ & _ & H).
  destruct (H 256) as (Hs & Hd & _); [by_evaluation ..|].
  split; [exact Hs|]. apply (Hd 1000255). by_evaluation.
Defined.

(** C10 as stated fails for a negative block size of a signed type: the
    precondition [block_size > 0] is not what makes the result defined.
    With [int] arguments [n = 10] and [block_size = -4] every operator is
    defined ([-4 - 1 = -5], [10 + -5 = 5], [5 / -4 = -1]), the clamp in
    [int] gives [-1], and the function returns that as the [size_t]
    [2^64 - 1]. *)
Lemma C10_counterexample :
  representable int 10
  /\ representable int (-4)
  /\ ~ 0 < -4
  /\ ceiling_division int int 10 (-4) = Some (-1)
  /\ num_blocks_with_maximal_occupancy (closure := fill 0) (arch := scenario_arch)
       int int 10 (-4) 0 = Some 18446744073709551615.
Proof. conjuncts; by_evaluation. Qed.

Section ConfigurationClaims.
Context {World F : Type}.
Context {closure : NullaryFunction World F}.

(** C9.  On a device whose scheduling granularity is positive and within
    its limit of threads per block, the occupancy calculator of the design
    document gives [block_size_with_maximal_occupancy], for every closure
    type, kernel footprint and amount of dynamic shared memory per thread, a
    block size that is at most the device's maximum and a positive multiple
    of the granularity; it is never zero. *)
Theorem C9_block_size_is_valid limits footprint dynamic_smem_bytes_per_thread :
  0 < warp_size limits <= max_threads_per_block limits ->
  let block_size :=
    block_size_with_maximal_occupancy (arch := spec_arch limits footprint)
      dynamic_smem_bytes_per_thread in
  0 < block_size <= max_threads_per_block limits
  /\ exists k, 0 < k /\ block_size = k * warp_size limits.
Proof.
  intros Hdev. unfold block_size_with_maximal_occupancy.
  cbn [max_blocksize_with_highest_occupancy spec_arch].
  now apply spec_block_size_valid.
Qed.

(** C5, as amended.  With the occupancy calculator of the design document
    on a device of positive granularity, for a problem size [n >= 0] whose
    ceiling division does not overflow and a kernel of which at least one
    block can be resident, the derived configuration has a positive
    [block_size] within the device's limit, [num_blocks <= max_active_blocks],
    and [num_blocks * block_size >= n] unless [num_blocks] is the occupancy
    maximum; [num_blocks] is positive exactly when [n] is positive. *)
Theorem C5_configuration_invariant limits footprint Size n :
  0 < warp_size limits <= max_threads_per_block limits ->
  max_threads_per_block limits <= max_value size_t ->
  representable Size n -> 0 <= n ->
  let arch := spec_arch limits footprint in
  let block_size := block_size_with_maximal_occupancy (arch := arch) 0 in
  let max_blocks :=
    max_active_blocks (get_launch_function super_t) block_size 0 in
  n + (block_size - 1) <= max_value (type_of_sum Size size_t) ->
  1 <= max_blocks <= max_value (larger_type Size size_t) ->
  exists num_blocks,
    configuration_with_maximal_occupancy (arch := arch) Size n
    = Some (num_blocks, block_size)
    /\ 0 < block_size <= max_threads_per_block limits
    /\ (0 < num_blocks <-> 0 < n)
    /\ num_blocks <= max_blocks
    /\ (n <= num_blocks * block_size \/ num_blocks = max_blocks).
Proof.
  intros Hdev Hfit Hn Hn0 arch block_size max_blocks Hsum Hmax.
  destruct (spec_block_size_valid limits footprint
              (get_launch_function super_t) 0 Hdev) as [Hbs _].
  change (spec_max_blocksize_with_highest_occupancy limits footprint
            (get_launch_function super_t) 0) with block_size in Hbs.
  assert (Hrep : representable size_t block_size)
    by (apply nonneg_representable; lia).
  assert (Hconv : convert size_t block_size = block_size)
    by now apply convert_representable.
  pose proof (ceiling_covers n block_size ltac:(lia)) as Hc.
  pose proof (ceiling_le_dividend n block_size Hn0 ltac:(lia)) as Hq.
  exists (Z.min max_blocks ((n + (block_size - 1)) / block_size)).
  split.
  - unfold configuration_with_maximal_occupancy. fold block_size.
    rewrite (num_blocks_exact (arch := arch)); try assumption; try lia.
    + cbn [mbind option_bind]. rewrite Hconv. reflexivity.
    + rewrite Hconv. fold max_blocks. lia.
  - split; [exact Hbs|]. split; [|split].
    + split; intros H.
      * destruct (Z.eq_dec n 0) as [->|]; [|lia].
        assert ((0 + (block_size - 1)) / block_size = 0)
          by (apply Z.div_small; lia).
        lia.
      * assert (0 < (n + (block_size - 1)) / block_size) by nia. lia.
    + lia.
    + destruct (Z.min_spec max_blocks ((n + (block_size - 1)) / block_size))
        as [[_ ->]|[_ ->]]; [now right | left; lia].
Qed.

(** C8.  [configuration_with_maximal_occupancy] depends on the device and
    the kernel only through the two attributes it queries for its entry
    point: two calls with the same [n] that see the same answers (unchanged
    device and kernel state) return the same pair. *)
Theorem C8_configuration_is_deterministic (first second : ArchQueries) Size n :
  let kernel := get_launch_function super_t in
  max_blocksize_with_highest_occupancy (ArchQueries := first) kernel 0
  = max_blocksize_with_highest_occupancy (ArchQueries := second) kernel 0 ->
  (forall block_size,
     max_active_blocks (ArchQueries := first) kernel block_size 0
     = max_active_blocks (ArchQueries := second) kernel block_size 0) ->
  configuration_with_maximal_occupancy (arch := first) Size n
  = configuration_with_maximal_occupancy (arch := second) Size n.
Proof.
  intros kernel Hsize Hblocks.
  unfold configuration_with_maximal_occupancy, num_blocks_with_maximal_occupancy,
    block_size_with_maximal_occupancy.
  fold kernel. rewrite Hsize, Hblocks. reflexivity.
Qed.

End ConfigurationClaims.

(** C9 on the device of the scenario: the block size is 1024 = 32 * 32. *)
Lemma C9_witness :
  0 < block_size_with_maximal_occupancy (closure := fill 0) (arch := scenario_arch) 0
    <= 1024.
Proof.
  refine (proj1 (C9_block_size_is_valid (closure := fill 0)
                   scenario_limits scenario_footprint 0 _)).
  by_evaluation.
Defined.

(** C5 at the scenario: a million work items give 16 blocks of 1024. *)
Lemma C5_witness :
  exists num_blocks,
    configuration_with_maximal_occupancy (closure := fill 0) (arch := scenario_arch)
      int 1000000 = Some (num_blocks, 1024)
    /\ (0 < num_blocks <-> 0 < 1000000).
Proof.
  destruct (C5_configuration_invariant (closure := fill 0)
              scenario_limits scenario_footprint int 1000000)
    as (nb & Hcfg & _ & Hpos & _); [by_evaluation ..|].
  exists nb. split; [exact Hcfg | exact Hpos].
Defined.

(** C5 as stated fails at [n = 0]: the derived configuration has no block
    at all. *)
Lemma C5_counterexample :
  representable int 0
  /\ configuration_with_maximal_occupancy (closure := fill 0) (arch := scenario_arch)
       int 0 = Some (0, 1024)
  /\ ~ 0 < 0.
Proof. conjuncts; [by_evaluation | by_evaluation | lia]. Qed.

(** C8 at the scenario. *)
Lemma C8_witness :
  configuration_with_maximal_occupancy (closure := fill 0) (arch := scenario_arch)
    int 1000000
  = configuration_with_maximal_occupancy (closure := fill 0)
      (arch := scenario_arch_again) int 1000000.
Proof.
  apply (C8_configuration_is_deterministic (closure := fill 0)
           scenario_arch scenario_arch_again int 1000000).
  - by_evaluation.
  - intros block_size. reflexivity.
Defined.

(* ===================================================================== *)
(** ** Facts about the device *)
(* ===================================================================== *)

Section DeviceFacts.
Context {World F : Type}.
Context {closure : NullaryFunction World F}.

Implicit Types (d : device World F) (e : queue_entry F) (q : list (queue_entry F)).

Ltac exec_cases d e :=
  unfold exec_entry; destruct e as [s|p]; cbn;
  [ destruct (run_kernel (heap d) s (world d))
  | destruct (heap d !! p) ]; reflexivity.

(** Executing queued work is invisible to the host's own record of calls,
    to the allocator's next address and to the diagnostic mode, and it
    leaves the queue's remainder alone. *)
Lemma exec_entry_trace d e : trace (exec_entry d e) = trace d.
Proof. exec_cases d e. Qed.

Lemma exec_entry_queue d e : queue (exec_entry d e) = queue d.
Proof. exec_cases d e. Qed.

Lemma exec_entry_executed d e : executed (exec_entry d e) = executed d ++ [e].
Proof. exec_cases d e. Qed.

Lemma exec_entry_next_address d e :
  next_address (exec_entry d e) = next_address d.
Proof. exec_cases d e. Qed.

Lemma exec_all_trace q d : trace (fold_left exec_entry q d) = trace d.
Proof.
  revert d. induction q as [|e q IH]; intros d; cbn [fold_left]; [reflexivity|].
  now rewrite IH, exec_entry_trace.
Qed.

Lemma exec_all_queue q d : queue (fold_left exec_entry q d) = queue d.
Proof.
  revert d. induction q as [|e q IH]; intros d; cbn [fold_left]; [reflexivity|].
  now rewrite IH, exec_entry_queue.
Qed.

(** The device executes its queue in order. *)
Lemma exec_all_executed q d :
  executed (fold_left exec_entry q d) = executed d ++ q.
Proof.
  revert d. induction q as [|e q IH]; intros d; cbn [fold_left].
  - now rewrite app_nil_r.
  - rewrite IH, exec_entry_executed, <- app_assoc. reflexivity.
Qed.

Lemma exec_all_next_address q d :
  next_address (fold_left exec_entry q d) = next_address d.
Proof.
  revert d. induction q as [|e q IH]; intros d; cbn [fold_left]; [reflexivity|].
  now rewrite IH, exec_entry_next_address.
Qed.

Lemma drain_next_address d : next_address (drain d) = next_address d.
Proof. unfold drain. now rewrite exec_all_next_address. Qed.

Lemma drain_trace d : trace (drain d) = trace d.
Proof. unfold drain. now rewrite exec_all_trace. Qed.

Lemma drain_queue d : queue (drain d) = [].
Proof. unfold drain. now rewrite exec_all_queue. Qed.

Lemma drain_executed d : executed (drain d) = executed d ++ queue d.
Proof. unfold drain. now rewrite exec_all_executed. Qed.

(** With nothing queued, draining does nothing. *)
Lemma drain_idle d : queue d = [] -> drain d = set_queue [] d.
Proof. unfold drain. now intros ->. Qed.

(** Draining in two stages. *)
Lemma drain_app d q1 q2 :
  queue d = q1 ++ q2 ->
  drain d = fold_left exec_entry q2 (fold_left exec_entry q1 (set_queue [] d)).
Proof. intros E. unfold drain. now rewrite E, fold_left_app. Qed.

Lemma drain_snoc d q e :
  queue d = q ++ [e] ->
  drain d = exec_entry (fold_left exec_entry q (set_queue [] d)) e.
Proof. intros E. now rewrite (drain_app d q [e] E). Qed.

(** Kernels whose entry points agree on every invocation have the same
    effect. *)
Lemma run_threads_ext (body1 body2 : thread -> World -> option World) ts w :
  (forall t w', body1 t w' = body2 t w') ->
  run_threads body1 ts w = run_threads body2 ts w.
Proof.
  intros Hext. unfold run_threads. generalize (Some w) as ow.
  induction ts as [|t ts IH]; intros ow; cbn [fold_left]; [reflexivity|].
  rewrite IH. f_equal. destruct ow; [apply Hext | reflexivity].
Qed.

(** Reading a closure back from the buffer it was copied to gives the
    closure: the by-pointer entry point then does what the by-value one
    does. *)
Lemma entry_points_agree (mem : gmap Z (list Byte.byte)) p (f : F) t w :
  mem !! p = Some (to_bytes f) ->
  launch_closure_by_pointer mem p t w = launch_closure_by_value f t w.
Proof.
  intros Hp. unfold launch_closure_by_pointer, launch_closure_by_value.
  rewrite Hp. cbn [fmap option_fmap option_map]. now rewrite from_to_bytes.
Qed.

Lemma kernels_agree (mem : gmap Z (list Byte.byte)) p (f : F) g b sm w :
  mem !! p = Some (to_bytes f) ->
  run_kernel mem (Submission g b sm (call_by_pointer p)) w
  = run_kernel mem (Submission g b sm (call_by_value f)) w.
Proof.
  intros Hp. unfold run_kernel. cbn [kernel entry_point].
  apply run_threads_ext. intros t w'. now apply entry_points_agree.
Qed.

(** A failed allocation changes nothing. *)
Lemma malloc_failure bytes d (err : error) :
  fst (malloc bytes d) = raise err ->
  malloc bytes d = (raise OutOfDeviceMemory, d).
Proof.
  unfold malloc. destruct (bytes <=? available d); cbn; [discriminate|reflexivity].
Qed.

End DeviceFacts.

Section BufferFacts.
Context {World F : Type}.
Context {closure : NullaryFunction World F}.

Implicit Types (d : device World F) (e : queue_entry F) (q : list (queue_entry F)).

(** Work that does not refer to address [p] neither sees nor disturbs a
    buffer at [p]. *)
Lemma exec_entry_beside_buffer p data d1 d2 e :
  address_of e <> Some p ->
  heap d2 = <[p := data]> (heap d1) ->
  world d2 = world d1 -> fault d2 = fault d1 ->
  heap (exec_entry d2 e) = <[p := data]> (heap (exec_entry d1 e))
  /\ world (exec_entry d2 e) = world (exec_entry d1 e)
  /\ fault (exec_entry d2 e) = fault (exec_entry d1 e).
Proof.
  intros Hp Hh Hw Hf. unfold exec_entry. destruct e as [s|p']; cbn.
  - rewrite Hw.
    assert (E : run_kernel (heap d2) s (world d1)
                = run_kernel (heap d1) s (world d1)).
    { unfold run_kernel. apply run_threads_ext. intros t w'.
      unfold entry_point. cbn in Hp.
      destruct (kernel s) as [f|p'']; [reflexivity|].
      unfold launch_closure_by_pointer.
      rewrite Hh, lookup_insert_ne by congruence. reflexivity. }
    rewrite E. destruct (run_kernel (heap d1) s (world d1)); cbn; auto.
  - cbn in Hp. assert (p <> p') by congruence.
    rewrite Hh, lookup_insert_ne by assumption.
    destruct (heap d1 !! p'); cbn; [|auto].
    rewrite delete_insert_ne by congruence. auto.
Qed.

Lemma exec_all_beside_buffer p data q : forall d1 d2,
  Forall (fun e => address_of e <> Some p) q ->
  heap d2 = <[p := data]> (heap d1) ->
  world d2 = world d1 -> fault d2 = fault d1 ->
  heap (fold_left exec_entry q d2) = <[p := data]> (heap (fold_left exec_entry q d1))
  /\ world (fold_left exec_entry q d2) = world (fold_left exec_entry q d1)
  /\ fault (fold_left exec_entry q d2) = fault (fold_left exec_entry q d1).
Proof.
  induction q as [|e q IH]; intros d1 d2 Hq Hh Hw Hf; cbn [fold_left]; [auto|].
  inversion Hq as [|? ? He Hq']; subst.
  destruct (exec_entry_beside_buffer p data d1 d2 e He Hh Hw Hf) as (Hh' & Hw' & Hf').
  now apply IH.
Qed.

(** Pending work that the allocator knows about does not refer to the next
    address. *)
Lemma queue_allocated_fresh d :
  queue_allocated d = true ->
  Forall (fun e => address_of e <> Some (next_address d)) (queue d).
Proof.
  unfold queue_allocated. rewrite forallb_forall, Forall_forall.
  intros H e He E. apply list_elem_of_In in He.
  specialize (H e He). rewrite E in H. lia.
Qed.

(** What queued work does to memory, data and the fault flag depends on
    these three alone. *)
Lemma exec_entry_congruence d1 d2 e :
  heap d2 = heap d1 -> world d2 = world d1 -> fault d2 = fault d1 ->
  heap (exec_entry d2 e) = heap (exec_entry d1 e)
  /\ world (exec_entry d2 e) = world (exec_entry d1 e)
  /\ fault (exec_entry d2 e) = fault (exec_entry d1 e).
Proof.
  intros Hh Hw Hf. unfold exec_entry. destruct e as [s|p]; cbn;
    rewrite Hh, ?Hw.
  - destruct (run_kernel (heap d1) s (world d1)); cbn; auto.
  - destruct (heap d1 !! p); cbn; auto.
Qed.

Lemma exec_all_congruence q : forall d1 d2,
  heap d2 = heap d1 -> world d2 = world d1 -> fault d2 = fault d1 ->
  heap (fold_left exec_entry q d2) = heap (fold_left exec_entry q d1)
  /\ world (fold_left exec_entry q d2) = world (fold_left exec_entry q d1)
  /\ fault (fold_left exec_entry q d2) = fault (fold_left exec_entry q d1).
Proof.
  induction q as [|e q IH]; intros d1 d2 Hh Hw Hf; cbn [fold_left]; [auto|].
  destruct (exec_entry_congruence d1 d2 e Hh Hw Hf) as (Hh' & Hw' & Hf').
  now apply IH.
Qed.

(** A by-pointer kernel that finds its buffer intact acts as its by-value
    twin, and leaves the buffer intact. *)
Lemma exec_kernel_from_buffer p (f : F) g b sm d1 d2 :
  heap d2 = <[p := to_bytes f]> (heap d1) ->
  world d2 = world d1 -> fault d2 = fault d1 ->
  let by_pointer := exec_entry d2 (q_kernel (Submission g b sm (call_by_pointer p))) in
  let by_value := exec_entry d1 (q_kernel (Submission g b sm (call_by_value f))) in
  heap by_pointer = <[p := to_bytes f]> (heap by_value)
  /\ world by_pointer = world by_value
  /\ fault by_pointer = fault by_value.
Proof.
  intros Hh Hw Hf by_pointer by_value. subst by_pointer by_value.
  assert (Hp : heap d2 !! p = Some (to_bytes f))
    by (rewrite Hh; apply lookup_insert_eq).
  unfold exec_entry. cbn.
  rewrite (kernels_agree _ p f) by assumption.
  rewrite Hw.
  change (run_kernel (heap d2) (Submission g b sm (call_by_value f)) (world d1))
    with (run_kernel (heap d1) (Submission g b sm (call_by_value f)) (world d1)).
  destruct (run_kernel (heap d1) _ (world d1)); cbn; auto.
Qed.

(** The release of a buffer touches neither the data nor the fault flag,
    and the buffer is gone afterwards. *)
Lemma exec_free_buffer p d :
  world (exec_entry d (q_free p)) = world d
  /\ fault (exec_entry d (q_free p)) = fault d
  /\ heap (exec_entry d (q_free p)) !! p = None.
Proof.
  unfold exec_entry. cbn. destruct (heap d !! p) eqn:E; cbn.
  - rewrite lookup_delete_eq. auto.
  - auto.
Qed.

(** The outcome of a by-pointer kernel and the release of its buffer, run
    after the work that was pending when the buffer was allocated at the
    allocator's next address.  [base] is the device when it starts on that
    work and [mid] the device when it comes to the release. *)
Lemma launch_outcome (f : F) g b sm d base mid :
  queue_allocated d = true ->
  let p := next_address d in
  heap base = <[p := to_bytes f]> (heap d) ->
  world base = world d -> fault base = fault d ->
  let ran := exec_entry (fold_left exec_entry (queue d) base)
               (q_kernel (Submission g b sm (call_by_pointer p))) in
  heap mid = heap ran -> world mid = world ran -> fault mid = fault ran ->
  let twin := exec_entry (drain d)
                (q_kernel (Submission g b sm (call_by_value f))) in
  world (exec_entry mid (q_free p)) = world twin
  /\ fault (exec_entry mid (q_free p)) = fault twin
  /\ heap (exec_entry mid (q_free p)) !! p = None.
Proof.
  intros Hwf p Hh Hw Hf ran Hmh Hmw Hmf twin.
  destruct (exec_all_beside_buffer p (to_bytes f) (queue d) (set_queue [] d) base)
    as (Hh' & Hw' & Hf'); [now apply queue_allocated_fresh | assumption ..|].
  destruct (exec_kernel_from_buffer p f g b sm _ _ Hh' Hw' Hf') as (_ & Hkw & Hkf).
  destruct (exec_free_buffer p mid) as (-> & -> & ->).
  subst ran twin. unfold drain. rewrite Hmw, Hmf, Hkw, Hkf. auto.
Qed.

End BufferFacts.

(* ===================================================================== *)
(** ** Dispatch and launch *)
(* ===================================================================== *)

Section LaunchClaims.
Context {World F : Type}.
Context {closure : NullaryFunction World F}.

Implicit Types (d : device World F) (f : F).

(** C1.  For every closure type the launcher is chosen by the closure's
    size alone: with [sizeof <= 256] the base of [closure_launcher] is the
    by-value launcher (entry point [launch_closure_by_value]), with
    [sizeof > 256] it is the by-pointer launcher (entry point
    [launch_closure_by_pointer]); [launch_closure] launches through the
    chosen one. *)
Theorem C1_dispatch_by_size :
  (sizeof (F := F) <= 256 ->
     super_t = closure_launcher_base_by_value
     /\ get_launch_function super_t = entry_by_value
     /\ forall f num_blocks block_size smem_size,
          launch_closure_smem f num_blocks block_size smem_size
          = launch closure_launcher_base_by_value f num_blocks block_size smem_size)
  /\ (256 < sizeof (F := F) ->
     super_t = closure_launcher_base_by_pointer
     /\ get_launch_function super_t = entry_by_pointer
     /\ forall f num_blocks block_size smem_size,
          launch_closure_smem f num_blocks block_size smem_size
          = launch closure_launcher_base_by_pointer f num_blocks block_size smem_size).
Proof.
  unfold launch_closure_smem, launch_geometry, super_t, launch_by_value.
  split; intros Hsize.
  - destruct (Z.leb_spec (sizeof (F := F)) 256); [|lia]. cbn. auto.
  - destruct (Z.leb_spec (sizeof (F := F)) 256); [lia|]. cbn. auto.
Qed.

(** C3.  When the buffer at [p] holds the representation of closure [f],
    one invocation through the by-pointer entry point (copy the pointee,
    then call the copy) has the effect of one invocation through the
    by-value entry point on [f], for every thread and every state of the
    data; so have a whole by-pointer and a whole by-value kernel of the same
    geometry. *)
Theorem C3_entry_points_equivalent (mem : gmap Z (list Byte.byte)) (p : Z) f :
  mem !! p = Some (to_bytes f) ->
  (forall t w,
     launch_closure_by_pointer mem p t w = launch_closure_by_value f t w)
  /\ (forall g b sm w,
        run_kernel mem (Submission g b sm (call_by_pointer p)) w
        = run_kernel mem (Submission g b sm (call_by_value f)) w).
Proof.
  intros Hp. split.
  - intros t w. now apply entry_points_agree.
  - intros g b sm w. now apply kernels_agree.
Qed.

(** C4.  When the allocation of a by-pointer launch fails, the launch
    raises [OutOfDeviceMemory] and leaves the device exactly as it was:
    nothing has been copied or submitted and no device-side effect has
    occurred.  So it is for [launch_closure] on a closure of more than 256
    bytes. *)
Theorem C4_allocation_failure_aborts f num_blocks block_size smem_size d :
  fst (malloc (sizeof (F := F)) d) = raise OutOfDeviceMemory ->
  launch closure_launcher_base_by_pointer f num_blocks block_size smem_size d
  = (raise OutOfDeviceMemory, d)
  /\ (256 < sizeof (F := F) ->
      launch_closure_smem f num_blocks block_size smem_size d
      = (raise OutOfDeviceMemory, d)).
Proof.
  intros Hfail. apply malloc_failure in Hfail.
  assert (H : launch closure_launcher_base_by_pointer f num_blocks block_size
                smem_size d = (raise OutOfDeviceMemory, d)).
  { cbn [launch closure_launcher_base_by_pointer]. unfold bind at 1.
    now rewrite Hfail. }
  split; [exact H|]. intros Hsize.
  unfold launch_closure_smem, launch_geometry, super_t, launch_by_value.
  destruct (Z.leb_spec (sizeof (F := F)) 256); [lia|]. exact H.
Qed.

End LaunchClaims.

(** C1 at the boundary: a closure of exactly 256 bytes goes by value, one
    of 257 bytes by pointer. *)
Lemma C1_witness :
  (sizeof (NullaryFunction := fill 255) = 256
   /\ get_launch_function (super_t (closure := fill 255)) = entry_by_value)
  /\ (sizeof (NullaryFunction := fill 256) = 257
      /\ get_launch_function (super_t (closure := fill 256)) = entry_by_pointer).
Proof.
  split; (split; [reflexivity|]).
  - refine (proj1 (proj2 (proj1 (C1_dispatch_by_size (closure := fill 255)) _))).
    by_evaluation.
  - refine (proj1 (proj2 (proj2 (C1_dispatch_by_size (closure := fill 256)) _))).
    by_evaluation.
Defined.

(** C3 for a closure of 257 bytes in a buffer at address 4096. *)
Lemma C3_witness :
  launch_closure_by_pointer (closure := fill 256)
    {[ 4096 := to_bytes (NullaryFunction := fill 256) Byte.x2a ]} 4096
    (Thread 0 1 1 2) [Byte.x00; Byte.x00]
  = launch_closure_by_value (closure := fill 256) Byte.x2a
      (Thread 0 1 1 2) [Byte.x00; Byte.x00].
Proof.
  refine (proj1 (C3_entry_points_equivalent (closure := fill 256)
                   {[ 4096 := to_bytes (NullaryFunction := fill 256) Byte.x2a ]}
                   4096 Byte.x2a _) _ _).
  vm_compute. reflexivity.
Defined.

(** C4 on a device with 100 bytes left and a closure of 257 bytes. *)
Lemma C4_witness :
  launch_closure_smem (closure := fill 256) Byte.x2a 2 2 0
    (idle_device 100 false [Byte.x00; Byte.x00; Byte.x00; Byte.x00])
  = (raise OutOfDeviceMemory,
     idle_device 100 false [Byte.x00; Byte.x00; Byte.x00; Byte.x00]).
Proof.
  refine (proj2 (C4_allocation_failure_aborts (closure := fill 256) Byte.x2a 2 2 0
                   (idle_device 100 false
                      [Byte.x00; Byte.x00; Byte.x00; Byte.x00]) _) _);
    by_evaluation.
Defined.

Section LaunchSequence.
Context {World F : Type}.
Context {closure : NullaryFunction World F}.

Implicit Types (d : device World F) (f : F).

Ltac dev_simpl :=
  cbn [heap next_address available queue executed world fault synchronous trace
       set_heap set_allocator set_queue set_executed set_world set_fault log].
Ltac dev_simpl_in H :=
  cbn [heap next_address available queue executed world fault synchronous trace
       set_heap set_allocator set_queue set_executed set_world set_fault log] in H.

(** A by-pointer launch whose allocation succeeds, up to and including the
    call of the diagnostic hook: the state [d3] the hook acts on, and how
    the launch goes on from there. *)
Lemma by_pointer_launch_stages f num_blocks block_size smem_size d :
  (sizeof (F := F) <=? available d) = true ->
  let p := next_address d in
  let s := Submission (convert unsigned_int num_blocks)
             (convert unsigned_int block_size)
             (convert unsigned_int smem_size) (call_by_pointer p) in
  exists d3,
    (heap d3 = <[p := to_bytes f]> (heap d)
     /\ queue d3 = queue d ++ [q_kernel s]
     /\ executed d3 = executed d
     /\ world d3 = world d
     /\ fault d3 = fault d
     /\ next_address d3 = p + Z.max 1 (sizeof (F := F))
     /\ trace d3 = trace d ++ [ev_malloc (sizeof (F := F)) p;
                               ev_copy p (to_bytes f);
                               ev_submit s;
                               ev_synchronize "launch_closure_by_pointer"])
    /\ launch closure_launcher_base_by_pointer f num_blocks block_size smem_size d
       = if synchronous d then
           if fault (drain d3)
           then (raise (DeviceExecutionFault "launch_closure_by_pointer"), drain d3)
           else free p (drain d3)
         else free p d3.
Proof.
  intros Hav p s.
  cbn [launch closure_launcher_base_by_pointer].
  unfold bind at 1. unfold malloc. rewrite Hav. fold p.
  unfold bind at 1. unfold device_store. dev_simpl.
  rewrite lookup_insert_eq.
  unfold bind at 1. unfold submit. dev_simpl. fold s.
  unfold bind at 1. unfold synchronize_if_enabled. dev_simpl.
  eexists. split; [|destruct (synchronous d); [|reflexivity]].
  2: { match goal with |- context [fault ?x] => destruct (fault x) end;
       reflexivity. }
  dev_simpl. rewrite insert_insert_eq, <- !app_assoc. cbn [app]. auto 10.
Qed.

(** The outcome on the device of a by-pointer launch that returns normally,
    from a state whose pending work refers only to addresses already handed
    out: the kernel has acted as its by-value twin, and the buffer is gone
    once the queue has drained. *)
Lemma by_pointer_launch_outcome f num_blocks block_size smem_size d d' :
  queue_allocated d = true ->
  launch closure_launcher_base_by_pointer f num_blocks block_size smem_size d
  = (ok tt, d') ->
  let twin := exec_entry (drain d)
                (q_kernel (Submission (convert unsigned_int num_blocks)
                             (convert unsigned_int block_size)
                             (convert unsigned_int smem_size)
                             (call_by_value f))) in
  world (drain d') = world twin
  /\ fault (drain d') = fault twin
  /\ heap (drain d') !! next_address d = None.
Proof.
  intros Hwf H twin. subst twin.
  destruct (sizeof (F := F) <=? available d) eqn:Hav.
  2: { cbn [launch closure_launcher_base_by_pointer] in H.
       unfold bind at 1 in H. unfold malloc in H. rewrite Hav in H.
       discriminate. }
  destruct (by_pointer_launch_stages f num_blocks block_size smem_size d Hav)
    as (d3 & (Hh & Hq & _ & Hw & Hf & _ & _) & Hrun).
  rewrite Hrun in H. clear Hrun.
  destruct (synchronous d).
  - (* the hook has waited for the kernel; only the free is pending *)
    destruct (fault (drain d3)) eqn:Hfault; [discriminate|].
    unfold free in H. injection H as <-.
    match goal with |- context [drain (log ?e ?x)] =>
      rewrite !(drain_snoc (log e x) [] (q_free (next_address d)))
        by (dev_simpl; rewrite drain_queue; reflexivity)
    end.
    cbn [fold_left].
    apply (launch_outcome f _ _ _ d (set_queue [] d3)); try assumption;
      dev_simpl; rewrite (drain_snoc d3 (queue d) _ Hq); reflexivity.
  - (* kernel and free are both pending *)
    unfold free in H. injection H as <-.
    match goal with |- context [drain (log ?e ?x)] =>
      rewrite !(drain_snoc (log e x) (queue d3) (q_free (next_address d)))
        by (dev_simpl; reflexivity)
    end.
    rewrite Hq, fold_left_app. cbn [fold_left].
    match goal with |- context [fold_left exec_entry (queue d) ?base] =>
      apply (launch_outcome f _ _ _ d base)
    end; dev_simpl; first [assumption | reflexivity].
Qed.

(** The same for a by-value launch: once the queue has drained, the kernel
    has run after the work that was pending. *)
Lemma by_value_launch_outcome f num_blocks block_size smem_size d d' :
  launch closure_launcher_base_by_value f num_blocks block_size smem_size d
  = (ok tt, d') ->
  let twin := exec_entry (drain d)
                (q_kernel (Submission (convert unsigned_int num_blocks)
                             (convert unsigned_int block_size)
                             (convert unsigned_int smem_size)
                             (call_by_value f))) in
  world (drain d') = world twin /\ fault (drain d') = fault twin.
Proof.
  intros H twin. subst twin.
  cbn [launch closure_launcher_base_by_value] in H.
  unfold bind, submit, synchronize_if_enabled in H. dev_simpl_in H.
  match type of H with context [q_kernel ?s] => set (k := q_kernel s) in * end.
  match type of H with context [drain ?x] => set (d2 := x) in * end.
  assert (Hq : queue d2 = queue d ++ [k]) by reflexivity.
  assert (Hd2 : world (drain d2) = world (exec_entry (drain d) k)
                /\ fault (drain d2) = fault (exec_entry (drain d) k)).
  { rewrite (drain_snoc d2 (queue d) k Hq).
    destruct (exec_all_congruence (queue d) (set_queue [] d) (set_queue [] d2))
      as (Hh & Hw & Hf); [reflexivity ..|].
    destruct (exec_entry_congruence _ _ k Hh Hw Hf) as (_ & -> & ->). auto. }
  destruct (synchronous d).
  - destruct (fault (drain d2)) eqn:E; [discriminate|]. injection H as <-.
    rewrite (drain_idle (drain d2) (drain_queue d2)). dev_simpl.
    rewrite E. exact Hd2.
  - injection H as <-. exact Hd2.
Qed.

(** Round trip: launched by value or by pointer with the same geometry from
    the same state, a closure leaves the same data and the same fault flag
    behind. *)
Lemma launch_paths_agree f num_blocks block_size smem_size d by_value by_pointer :
  queue_allocated d = true ->
  launch closure_launcher_base_by_value f num_blocks block_size smem_size d
  = (ok tt, by_value) ->
  launch closure_launcher_base_by_pointer f num_blocks block_size smem_size d
  = (ok tt, by_pointer) ->
  world (drain by_pointer) = world (drain by_value)
  /\ fault (drain by_pointer) = fault (drain by_value).
Proof.
  intros Hwf Hv Hp.
  destruct (by_value_launch_outcome _ _ _ _ _ _ Hv) as (-> & ->).
  destruct (by_pointer_launch_outcome _ _ _ _ _ _ Hwf Hp) as (-> & -> & _).
  auto.
Qed.

(** C7, as amended.  For every by-pointer launch that returns normally (the
    allocation does not fail and the diagnostic hook does not raise), the
    host's calls are, in this order and nothing else: one allocation of
    [sizeof] bytes, one copy of the closure into that buffer, the
    submission of the kernel on that buffer, the diagnostic hook, one free
    of that buffer.  The device executes the kernel, then the free.  When
    the work pending at the launch refers only to addresses already handed
    out, every invocation of the kernel reads the closure from the intact
    buffer (the kernel acts as its by-value twin), and the buffer is gone
    once the queue has drained. *)
Theorem C7_by_pointer_launch_sequence f num_blocks block_size smem_size d d' :
  launch closure_launcher_base_by_pointer f num_blocks block_size smem_size d
  = (ok tt, d') ->
  let p := next_address d in
  let geometry := Submission (convert unsigned_int num_blocks)
                    (convert unsigned_int block_size)
                    (convert unsigned_int smem_size) in
  trace d' = trace d ++ [ev_malloc (sizeof (F := F)) p;
                         ev_copy p (to_bytes f);
                         ev_submit (geometry (call_by_pointer p));
                         ev_synchronize "launch_closure_by_pointer";
                         ev_free p]
  /\ executed (drain d')
     = executed (drain d) ++ [q_kernel (geometry (call_by_pointer p)); q_free p]
  /\ (queue_allocated d = true ->
      world (drain d')
      = world (exec_entry (drain d) (q_kernel (geometry (call_by_value f))))
      /\ fault (drain d')
         = fault (exec_entry (drain d) (q_kernel (geometry (call_by_value f))))
      /\ heap (drain d') !! p = None).
Proof.
  intros H p geometry.
  split; [|split];
    [| | intros Hwf; now apply (by_pointer_launch_outcome f _ _ _ d d')].
  all: destruct (sizeof (F := F) <=? available d) eqn:Hav;
    [| cbn [launch closure_launcher_base_by_pointer] in H;
       unfold bind at 1 in H; unfold malloc in H; rewrite Hav in H;
       discriminate ].
  all: destruct (by_pointer_launch_stages f num_blocks block_size smem_size d Hav)
    as (d3 & (_ & Hq & Hx & _ & _ & _ & Ht) & Hrun);
    fold p in Hq, Ht, Hrun; fold geometry in Hq, Ht;
    rewrite Hrun in H; clear Hrun;
    destruct (synchronous d);
    [ destruct (fault (drain d3)); [discriminate|] | ];
    unfold free in H; injection H as <-.
  - dev_simpl. rewrite drain_trace, Ht, <- app_assoc. reflexivity.
  - dev_simpl. rewrite Ht, <- app_assoc. reflexivity.
  - rewrite !drain_executed. dev_simpl.
    rewrite drain_executed, drain_queue, Hx, Hq, <- !app_assoc. reflexivity.
  - rewrite !drain_executed. dev_simpl.
    rewrite Hx, Hq, <- !app_assoc. reflexivity.
Qed.

(** Entries the allocator knew about, it still knows about once it has
    handed out more. *)
Lemma allocated_entries_mono (q : list (queue_entry F)) next next' :
  next <= next' ->
  forallb (fun e => match address_of e with
                    | Some p => p <? next
                    | None => true
                    end) q = true ->
  forallb (fun e => match address_of e with
                    | Some p => p <? next'
                    | None => true
                    end) q = true.
Proof.
  intros Hle. rewrite !forallb_forall. intros H e He. specialize (H e He).
  destruct (address_of e); [lia | reflexivity].
Qed.

(** The hypothesis of C7 on the pending work is kept by every by-pointer
    launch, whatever its outcome. *)
Lemma by_pointer_launch_keeps_queue_allocated f num_blocks block_size smem_size d :
  queue_allocated d = true ->
  queue_allocated
    (snd (launch closure_launcher_base_by_pointer f num_blocks block_size
            smem_size d)) = true.
Proof.
  intros Hwf.
  destruct (sizeof (F := F) <=? available d) eqn:Hav.
  2: { cbn [launch closure_launcher_base_by_pointer].
       unfold bind at 1. unfold malloc. rewrite Hav. exact Hwf. }
  destruct (by_pointer_launch_stages f num_blocks block_size smem_size d Hav)
    as (d3 & (_ & Hq & _ & _ & _ & Hn & _) & ->).
  unfold queue_allocated in *.
  destruct (synchronous d); [destruct (fault (drain d3))|]; unfold free;
    cbn [snd]; dev_simpl; rewrite ?drain_queue, ?drain_next_address, ?Hq, ?Hn;
    rewrite ?forallb_app; cbn [forallb app address_of kernel];
    rewrite ?andb_true_r, ?andb_true_iff; try reflexivity.
  - lia.
  - split; [split|]; [|lia..].
    eapply allocated_entries_mono; [|exact Hwf]. lia.
Qed.

End LaunchSequence.

(** C7 for a closure of 257 bytes on an idle device in diagnostic mode, over
    an output range that the four invocations fill. *)
Lemma C7_witness :
  let d := idle_device 1000 true [Byte.x00; Byte.x00; Byte.x00; Byte.x00] in
  let d' := snd (launch (closure_launcher_base_by_pointer (closure := fill 256))
                   Byte.x2a 2 2 0 d) in
  trace d'
  = trace d ++ [ev_malloc 257 4096;
                ev_copy 4096 (to_bytes (NullaryFunction := fill 256) Byte.x2a);
                ev_submit (Submission 2 2 0 (call_by_pointer 4096));
                ev_synchronize "launch_closure_by_pointer";
                ev_free 4096]
  /\ heap (drain (closure := fill 256) d') !! 4096 = None.
Proof.
  intros d d'.
  destruct (C7_by_pointer_launch_sequence (closure := fill 256)
              Byte.x2a 2 2 0 d d') as (Ht & _ & Hc).
  - vm_compute. reflexivity.
  - split; [exact Ht|]. apply Hc. reflexivity.
Defined.

(** C7 as stated fails when the diagnostic hook raises: the allocation
    succeeded, the closure was copied and the kernel submitted, but the
    invocation faults (the output range is empty), the hook raises, and the
    launch ends without the free; the buffer stays allocated. *)
Lemma C7_counterexample :
  let d := idle_device (F := Byte.byte) 1000 true [] in
  let outcome := launch (closure_launcher_base_by_pointer (closure := fill 256))
                   Byte.x2a 1 1 0 d in
  fst (malloc (sizeof (NullaryFunction := fill 256)) d) = ok 4096
  /\ fst outcome = raise (DeviceExecutionFault "launch_closure_by_pointer")
  /\ trace (snd outcome)
     = [ev_malloc 257 4096;
        ev_copy 4096 (to_bytes (NullaryFunction := fill 256) Byte.x2a);
        ev_submit (Submission 1 1 0 (call_by_pointer 4096));
        ev_synchronize "launch_closure_by_pointer"]
  /\ heap (snd outcome) !! 4096
     = Some (to_bytes (NullaryFunction := fill 256) Byte.x2a).
Proof. intros d outcome. conjuncts; vm_compute; reflexivity. Qed.

(* ===================================================================== *)
(** ** Further properties of the launchers *)
(* ===================================================================== *)

Section LaunchOutcomes.
Context {World F : Type}.
Context {closure : NullaryFunction World F}.

Implicit Types (d : device World F) (f : F).

Ltac dev_simpl :=
  cbn [heap next_address available queue executed world fault synchronous trace
       set_heap set_allocator set_queue set_executed set_world set_fault log].

(** The by-value launch, spelled out: the state [d2] the diagnostic hook acts
    on, and what the launch returns. *)
Lemma by_value_launch_stages f num_blocks block_size smem_size d :
  let s := Submission (convert unsigned_int num_blocks)
             (convert unsigned_int block_size)
             (convert unsigned_int smem_size) (call_by_value f) in
  let d2 := log (ev_synchronize "launch_closure_by_value")
              (log (ev_submit s) (set_queue (queue d ++ [q_kernel s]) d)) in
  launch closure_launcher_base_by_value f num_blocks block_size smem_size d
  = if synchronous d then
      if fault (drain d2)
      then (raise (DeviceExecutionFault "launch_closure_by_value"), drain d2)
      else (ok tt, drain d2)
    else (ok tt, d2).
Proof.
  intros s d2. cbn [launch closure_launcher_base_by_value].
  unfold bind, submit, synchronize_if_enabled. dev_simpl. fold s. fold d2.
  destruct (synchronous d); [|reflexivity].
  destruct (fault (drain d2)); reflexivity.
Qed.

(** X1.  The by-value launch never allocates and has one way to fail.  It
    makes two calls, the submission and the diagnostic hook; it returns
    normally or raises the hook's [DeviceExecutionFault], never
    [OutOfDeviceMemory], however little device memory is left; the device
    executes the kernel after the work that was pending; and with the hook
    disabled the launch returns before anything has run, the kernel being
    the last entry of the queue. *)
Theorem X1_by_value_launch_sequence f num_blocks block_size smem_size d :
  let s := Submission (convert unsigned_int num_blocks)
             (convert unsigned_int block_size)
             (convert unsigned_int smem_size) (call_by_value f) in
  let outcome :=
    launch closure_launcher_base_by_value f num_blocks block_size smem_size d in
  (fst outcome = ok tt
   \/ fst outcome = raise (DeviceExecutionFault "launch_closure_by_value"))
  /\ trace (snd outcome)
     = trace d ++ [ev_submit s; ev_synchronize "launch_closure_by_value"]
  /\ executed (drain (snd outcome)) = executed (drain d) ++ [q_kernel s]
  /\ next_address (snd outcome) = next_address d
  /\ (synchronous d = false ->
      fst outcome = ok tt
      /\ queue (snd outcome) = queue d ++ [q_kernel s]
      /\ heap (snd outcome) = heap d
      /\ available (snd outcome) = available d
      /\ world (snd outcome) = world d
      /\ executed (snd outcome) = executed d).
Proof.
  intros s outcome. subst outcome.
  rewrite by_value_launch_stages. fold s.
  set (d2 := log _ (log _ (set_queue _ d))).
  assert (Hexec : executed (drain d2) = executed (drain d) ++ [q_kernel s]).
  { rewrite !drain_executed. unfold d2. dev_simpl. now rewrite app_assoc. }
  destruct (synchronous d) eqn:Hs.
  - assert (Hidle : drain (drain d2) = set_queue [] (drain d2))
      by (apply drain_idle, drain_queue).
    destruct (fault (drain d2)); cbn [fst snd];
      (split; [auto|]); rewrite Hidle; dev_simpl;
      rewrite drain_trace, drain_next_address, Hexec; unfold d2; dev_simpl;
      rewrite <- app_assoc; repeat split; discriminate.
  - cbn [fst snd]. split; [auto|]. rewrite Hexec. unfold d2. dev_simpl.
    rewrite <- app_assoc. repeat split.
Qed.

(** The by-pointer launch, when the allocation fails. *)
Lemma by_pointer_launch_without_memory f num_blocks block_size smem_size d :
  (sizeof (F := F) <=? available d) = false ->
  launch closure_launcher_base_by_pointer f num_blocks block_size smem_size d
  = (raise OutOfDeviceMemory, d).
Proof.
  intros Hav. cbn [launch closure_launcher_base_by_pointer].
  unfold bind at 1. unfold malloc. now rewrite Hav.
Qed.

(** X6.  The by-pointer launch has two ways to fail and no other: it returns
    normally, or raises [OutOfDeviceMemory], or raises the hook's
    [DeviceExecutionFault].  It raises [OutOfDeviceMemory] exactly when the
    allocation does, and with the hook disabled that is its only failure.
    The copy never misses the buffer: [InvalidDevicePointer] does not
    occur. *)
Theorem X6_by_pointer_launch_outcomes f num_blocks block_size smem_size d :
  let r := fst (launch closure_launcher_base_by_pointer f num_blocks block_size
                  smem_size d) in
  (r = ok tt \/ r = raise OutOfDeviceMemory
   \/ r = raise (DeviceExecutionFault "launch_closure_by_pointer"))
  /\ (r = raise OutOfDeviceMemory
      <-> fst (malloc (sizeof (F := F)) d) = raise OutOfDeviceMemory)
  /\ (synchronous d = false ->
      r = ok tt \/ r = raise OutOfDeviceMemory).
Proof.
  intros r. subst r.
  destruct (sizeof (F := F) <=? available d) eqn:Hav.
  - destruct (by_pointer_launch_stages f num_blocks block_size smem_size d Hav)
      as (d3 & _ & ->).
    unfold malloc. rewrite Hav. cbn [fst].
    destruct (synchronous d); [destruct (fault (drain d3))|];
      unfold free; cbn [fst]; repeat split; auto; try discriminate;
      intros H; discriminate H.
  - rewrite by_pointer_launch_without_memory by assumption.
    unfold malloc. rewrite Hav. cbn [fst]. repeat split; auto.
Qed.

(** The geometry casts are periodic. *)
Lemma convert_unsigned_int_periodic v k :
  convert unsigned_int (v + k * 4294967296) = convert unsigned_int v.
Proof.
  unfold convert. cbn [is_signed unsigned_int andb].
  change (modulus unsigned_int) with 4294967296.
  now rewrite Z.mod_add by lia.
Qed.

(** X2.  Both launchers cast the grid size, the block size and the amount
    of shared memory to [unsigned int], so they see them modulo [2^32]:
    arguments that differ by multiples of [2^32] give the same launch (a
    grid of [2^32] blocks is launched as a grid of none). *)
Theorem X2_geometry_is_taken_modulo_2_32
    (by_value : bool) f num_blocks block_size smem_size k1 k2 k3 d :
  launch (closure_launcher_base by_value) f
    (num_blocks + k1 * 4294967296) (block_size + k2 * 4294967296)
    (smem_size + k3 * 4294967296) d
  = launch (closure_launcher_base by_value) f num_blocks block_size smem_size d.
Proof.
  destruct by_value; cbn [closure_launcher_base launch
    closure_launcher_base_by_value closure_launcher_base_by_pointer];
    now rewrite !convert_unsigned_int_periodic.
Qed.

End LaunchOutcomes.

Section BufferLifetime.
Context {World F : Type}.
Context {closure : NullaryFunction World F}.

Implicit Types (d : device World F) (e : queue_entry F) (q : list (queue_entry F))
  (f : F).

Ltac dev_simpl :=
  cbn [heap next_address available queue executed world fault synchronous trace
       set_heap set_allocator set_queue set_executed set_world set_fault log].

(** Queued work only ever removes allocations. *)
Lemma exec_entry_keeps_absent p d e :
  heap d !! p = None -> heap (exec_entry d e) !! p = None.
Proof.
  intros Hp. unfold exec_entry. destruct e as [s|p']; cbn.
  - destruct (run_kernel (heap d) s (world d)); exact Hp.
  - destruct (heap d !! p') eqn:E; cbn; [|exact Hp].
    destruct (decide (p' = p)) as [->|Hne].
    + apply lookup_delete_eq.
    + now rewrite lookup_delete_ne.
Qed.

Lemma exec_all_keeps_absent p q : forall d,
  heap d !! p = None -> heap (fold_left exec_entry q d) !! p = None.
Proof.
  induction q as [|e q IH]; intros d Hp; cbn [fold_left]; [exact Hp|].
  now apply IH, exec_entry_keeps_absent.
Qed.

(** Work that does not refer to a buffer releases the same amounts of
    memory with the buffer present as without it. *)
Lemma exec_entry_beside_buffer_available p data d1 d2 e c :
  address_of e <> Some p ->
  heap d2 = <[p := data]> (heap d1) ->
  available d2 = available d1 + c ->
  available (exec_entry d2 e) = available (exec_entry d1 e) + c.
Proof.
  intros Hp Hh Ha. unfold exec_entry. destruct e as [s|p']; cbn.
  - destruct (run_kernel (heap d2) s (world d2));
      destruct (run_kernel (heap d1) s (world d1)); exact Ha.
  - cbn in Hp. rewrite Hh, lookup_insert_ne by congruence.
    destruct (heap d1 !! p'); cbn; lia.
Qed.

Lemma exec_all_beside_buffer_available p data q c : forall d1 d2,
  Forall (fun e => address_of e <> Some p) q ->
  heap d2 = <[p := data]> (heap d1) ->
  world d2 = world d1 -> fault d2 = fault d1 ->
  available d2 = available d1 + c ->
  available (fold_left exec_entry q d2)
  = available (fold_left exec_entry q d1) + c.
Proof.
  induction q as [|e q IH]; intros d1 d2 Hq Hh Hw Hf Ha; cbn [fold_left];
    [exact Ha|].
  inversion Hq as [|? ? He Hq']; subst.
  destruct (exec_entry_beside_buffer p data d1 d2 e He Hh Hw Hf) as (Hh' & Hw' & Hf').
  apply IH; try assumption.
  now apply exec_entry_beside_buffer_available with (p := p) (data := data).
Qed.

(** A kernel changes neither the allocations nor the allocator. *)
Lemma exec_kernel_keeps_memory d s :
  heap (exec_entry d (q_kernel s)) = heap d
  /\ available (exec_entry d (q_kernel s)) = available d.
Proof.
  unfold exec_entry. cbn. destruct (run_kernel (heap d) s (world d)); auto.
Qed.

(** The release of a buffer, seen from the allocator: with the buffer at
    [p] on top of a memory that has nothing at [p], that memory is what
    remains, and the buffer's bytes are available again. *)
Lemma exec_free_restores p data d (m : gmap Z (list Byte.byte)) :
  heap d = <[p := data]> m -> m !! p = None ->
  heap (exec_entry d (q_free p)) = m
  /\ available (exec_entry d (q_free p))
     = available d + Z.of_nat (length data).
Proof.
  intros Hh Hm. unfold exec_entry. cbn.
  rewrite Hh, lookup_insert_eq. cbn.
  now rewrite delete_insert_id.
Qed.

(** A by-pointer launch whose allocation succeeds, with the allocator's
    side of the state the diagnostic hook acts on. *)
Lemma by_pointer_launch_allocation f num_blocks block_size smem_size d :
  (sizeof (F := F) <=? available d) = true ->
  let p := next_address d in
  let s := Submission (convert unsigned_int num_blocks)
             (convert unsigned_int block_size)
             (convert unsigned_int smem_size) (call_by_pointer p) in
  exists d3,
    (heap d3 = <[p := to_bytes f]> (heap d)
     /\ queue d3 = queue d ++ [q_kernel s]
     /\ world d3 = world d
     /\ fault d3 = fault d
     /\ available d3 = available d + - sizeof (F := F))
    /\ launch closure_launcher_base_by_pointer f num_blocks block_size smem_size d
       = if synchronous d then
           if fault (drain d3)
           then (raise (DeviceExecutionFault "launch_closure_by_pointer"), drain d3)
           else free p (drain d3)
         else free p d3.
Proof.
  intros Hav p s.
  cbn [launch closure_launcher_base_by_pointer].
  unfold bind at 1. unfold malloc. rewrite Hav. fold p.
  unfold bind at 1. unfold device_store. dev_simpl.
  rewrite lookup_insert_eq.
  unfold bind at 1. unfold submit. dev_simpl. fold s.
  unfold bind at 1. unfold synchronize_if_enabled. dev_simpl.
  eexists. split; [|destruct (synchronous d); [|reflexivity]].
  2: { match goal with |- context [fault ?x] => destruct (fault x) end;
       reflexivity. }
  dev_simpl. rewrite insert_insert_eq. repeat split.
Qed.

(** The state in which a by-pointer kernel has run after the pending work:
    the buffer is still there, on top of the memory the pending work alone
    would have left, and its bytes are still taken. *)
Lemma buffer_after_kernel f g b sm d base :
  queue_allocated d = true ->
  let p := next_address d in
  heap base = <[p := to_bytes f]> (heap d) ->
  world base = world d -> fault base = fault d ->
  available base = available d + - sizeof (F := F) ->
  let ran := exec_entry (fold_left exec_entry (queue d) base)
               (q_kernel (Submission g b sm (call_by_pointer p))) in
  heap ran = <[p := to_bytes f]> (heap (drain d))
  /\ available ran = available (drain d) + - sizeof (F := F).
Proof.
  intros Hwf p Hh Hw Hf Ha ran. subst ran.
  pose proof (queue_allocated_fresh d Hwf) as Hfresh. fold p in Hfresh.
  destruct (exec_all_beside_buffer p (to_bytes f) (queue d) (set_queue [] d) base)
    as (Hh' & _ & _); try assumption.
  pose proof (exec_all_beside_buffer_available p (to_bytes f) (queue d)
                (- sizeof (F := F)) (set_queue [] d) base Hfresh Hh Hw Hf Ha)
    as Ha'.
  destruct (exec_kernel_keeps_memory (fold_left exec_entry (queue d) base)
              (Submission g b sm (call_by_pointer p))) as (-> & ->).
  unfold drain. auto.
Qed.

(** X4.  A by-pointer launch that returns normally leaves no allocation
    behind: once the queue has drained, device memory and the amount
    available are what the work pending at the launch alone would have left.
    (The address handed out must be free, and the pending work must refer
    only to addresses handed out before.) *)
Theorem X4_by_pointer_launch_is_balanced f num_blocks block_size smem_size d d' :
  queue_allocated d = true ->
  heap d !! next_address d = None ->
  launch closure_launcher_base_by_pointer f num_blocks block_size smem_size d
  = (ok tt, d') ->
  heap (drain d') = heap (drain d)
  /\ available (drain d') = available (drain d).
Proof.
  intros Hwf Hfree H.
  destruct (sizeof (F := F) <=? available d) eqn:Hav.
  2: { rewrite by_pointer_launch_without_memory in H by assumption.
       discriminate. }
  destruct (by_pointer_launch_allocation f num_blocks block_size smem_size d Hav)
    as (d3 & (Hh & Hq & Hw & Hf & Ha) & Hrun).
  rewrite Hrun in H. clear Hrun.
  assert (Habsent : heap (drain d) !! next_address d = None)
    by (apply exec_all_keeps_absent; exact Hfree).
  assert (Hdone : forall mid ran : device World F,
    heap ran = <[next_address d := to_bytes f]> (heap (drain d))
    /\ available ran = available (drain d) + - sizeof (F := F) ->
    heap mid = heap ran -> available mid = available ran ->
    heap (exec_entry mid (q_free (next_address d))) = heap (drain d)
    /\ available (exec_entry mid (q_free (next_address d)))
       = available (drain d)).
  { intros mid ran [Hrh Hra] Hmh Hma.
    destruct (exec_free_restores (next_address d) (to_bytes f) mid (heap (drain d)))
      as (-> & ->); [congruence | assumption |].
    rewrite Hma, Hra, length_to_bytes. split; [reflexivity | lia]. }
  destruct (synchronous d).
  - destruct (fault (drain d3)) eqn:Hfault; [discriminate|].
    unfold free in H. injection H as <-.
    match goal with |- context [drain (log ?e ?x)] =>
      rewrite !(drain_snoc (log e x) [] (q_free (next_address d)))
        by (dev_simpl; rewrite drain_queue; reflexivity)
    end.
    cbn [fold_left].
    eapply Hdone.
    + apply (buffer_after_kernel f (convert unsigned_int num_blocks)
               (convert unsigned_int block_size) (convert unsigned_int smem_size)
               d (set_queue [] d3)); assumption.
    + dev_simpl. rewrite (drain_snoc d3 (queue d) _ Hq). reflexivity.
    + dev_simpl. rewrite (drain_snoc d3 (queue d) _ Hq). reflexivity.
  - unfold free in H. injection H as <-.
    match goal with |- context [drain (log ?e ?x)] =>
      rewrite !(drain_snoc (log e x) (queue d3) (q_free (next_address d)))
        by (dev_simpl; reflexivity)
    end.
    rewrite Hq, fold_left_app. cbn [fold_left].
    match goal with |- context [fold_left exec_entry (queue d) ?base] =>
      eapply Hdone;
        [apply (buffer_after_kernel f (convert unsigned_int num_blocks)
                  (convert unsigned_int block_size)
                  (convert unsigned_int smem_size) d base);
           dev_simpl; assumption
        | reflexivity | reflexivity]
    end.
Qed.

(** X5.  When the diagnostic hook raises in a by-pointer launch, the buffer
    is never released: the launch has made the allocation, the copy, the
    submission and the hook call but no free; nothing is left on the queue;
    and the buffer still holds the closure, now and after any draining. *)
Theorem X5_hook_failure_leaks_buffer f num_blocks block_size smem_size d d' label :
  queue_allocated d = true ->
  launch closure_launcher_base_by_pointer f num_blocks block_size smem_size d
  = (raise (DeviceExecutionFault label), d') ->
  let p := next_address d in
  trace d' = trace d ++ [ev_malloc (sizeof (F := F)) p;
                         ev_copy p (to_bytes f);
                         ev_submit (Submission (convert unsigned_int num_blocks)
                                      (convert unsigned_int block_size)
                                      (convert unsigned_int smem_size)
                                      (call_by_pointer p));
                         ev_synchronize "launch_closure_by_pointer"]
  /\ queue d' = []
  /\ heap d' !! p = Some (to_bytes f)
  /\ heap (drain d') !! p = Some (to_bytes f)
  /\ available (drain d') = available (drain d) - sizeof (F := F).
Proof.
  intros Hwf H p.
  destruct (sizeof (F := F) <=? available d) eqn:Hav.
  2: { rewrite by_pointer_launch_without_memory in H by assumption.
       discriminate. }
  destruct (by_pointer_launch_stages f num_blocks block_size smem_size d Hav)
    as (d3 & (_ & _ & _ & _ & _ & _ & Ht) & Hrun).
  destruct (by_pointer_launch_allocation f num_blocks block_size smem_size d Hav)
    as (d3' & (Hh & Hq & Hw & Hf & Ha) & Hrun').
  rewrite Hrun in H.
  destruct (synchronous d) eqn:Hs.
  2: { unfold free in H. discriminate. }
  destruct (fault (drain d3)) eqn:Hfault; [|unfold free in H; discriminate].
  injection H as _ <-.
  split; [now rewrite drain_trace|]. split; [apply drain_queue|].
  rewrite Hrun' in Hrun.
  assert (E : drain d3 = drain d3').
  { destruct (fault (drain d3')); [congruence|].
    unfold free in Hrun. discriminate. }
  rewrite (drain_idle (drain d3) (drain_queue d3)). dev_simpl. rewrite E.
  rewrite (drain_snoc d3' (queue d) _ Hq).
  destruct (buffer_after_kernel f (convert unsigned_int num_blocks)
              (convert unsigned_int block_size) (convert unsigned_int smem_size)
              d (set_queue [] d3') Hwf Hh Hw Hf Ha) as (-> & ->).
  fold p. rewrite lookup_insert_eq. repeat split.
Qed.

(** X3.  Round trip through the two launchers: from the same state and with
    the same geometry, a closure launched by value and launched by pointer
    leaves the same data and the same fault flag once the queue has
    drained, provided both launches return normally and the pending work
    refers only to addresses already handed out. *)
Theorem X3_launchers_agree f num_blocks block_size smem_size d by_value by_pointer :
  queue_allocated d = true ->
  launch closure_launcher_base_by_value f num_blocks block_size smem_size d
  = (ok tt, by_value) ->
  launch closure_launcher_base_by_pointer f num_blocks block_size smem_size d
  = (ok tt, by_pointer) ->
  world (drain by_pointer) = world (drain by_value)
  /\ fault (drain by_pointer) = fault (drain by_value).
Proof.
  intros Hwf Hv Hp.
  now apply (launch_paths_agree f num_blocks block_size smem_size d).
Qed.

End BufferLifetime.

(* ===================================================================== *)
(** ** Further properties of the launch configuration *)
(* ===================================================================== *)

Section ConfigurationPath.

(** With a [size_t] block size every operator works in [size_t]. *)
Lemma type_of_sum_size_t Size : type_of_sum Size size_t = size_t.
Proof. by_cases_on Size; reflexivity. Qed.

Lemma larger_type_size_t Size :
  bits (width Size) < 64 -> larger_type Size size_t = size_t.
Proof. by_cases_on Size; intros H; try reflexivity; cbn in H; lia. Qed.

Lemma max_value_unsigned_int_larger Size :
  max_value unsigned_int <= max_value (larger_type Size size_t).
Proof. by_cases_on Size; vm_compute; congruence. Qed.

Lemma size_t_range v :
  representable size_t v <-> 0 <= v < 18446744073709551616.
Proof.
  unfold representable. change (min_value size_t) with 0.
  change (max_value size_t) with 18446744073709551615. lia.
Qed.

Lemma convert_size_t v : convert size_t v = v mod 18446744073709551616.
Proof. reflexivity. Qed.

(** The ceiling division on the path [configuration_with_maximal_occupancy]
    takes ([Size2] is [size_t]): it is carried out in [size_t], where
    nothing is undefined but a zero divisor; the problem size is read
    modulo [2^64] and the sum wraps around. *)
Lemma ceiling_division_in_size_t Size n block_size :
  representable size_t block_size -> 0 < block_size ->
  ceiling_division Size size_t n block_size
  = Some (((convert size_t n + (block_size - 1)) mod 18446744073709551616)
          / block_size).
Proof.
  intros Hb Hb0. pose proof (proj1 (size_t_range block_size) Hb) as Hb'.
  unfold ceiling_division.
  rewrite decrement_defined by assumption. cbn [mbind option_bind].
  unfold c_add.
  change (usual_arithmetic_conversions Size (type_of_decrement size_t))
    with (type_of_sum Size size_t).
  rewrite type_of_sum_size_t.
  unfold arith_result at 1. cbn [is_signed size_t]. cbn [mbind option_bind].
  change (modulus size_t) with 18446744073709551616.
  rewrite (convert_representable size_t (block_size - 1))
    by (apply size_t_range; lia).
  set (s := (convert size_t n + (block_size - 1)) mod 18446744073709551616).
  assert (Hs : 0 <= s < 18446744073709551616)
    by (apply Z.mod_pos_bound; lia).
  unfold c_div.
  change (usual_arithmetic_conversions size_t size_t) with size_t.
  rewrite (convert_representable size_t s) by (apply size_t_range; lia).
  rewrite (convert_representable size_t block_size) by assumption.
  destruct (Z.eqb_spec block_size 0); [lia|].
  rewrite Z.quot_div_nonneg by lia.
  apply arith_result_representable, size_t_range.
  split; [apply Z.div_pos; lia|].
  apply Z.le_lt_trans with s; [|lia].
  apply Z.div_le_upper_bound; nia.
Qed.

Context {World F : Type}.
Context {closure : NullaryFunction World F}.
Context {arch : ArchQueries}.

(** X12.  [configuration_with_maximal_occupancy] is defined for every
    problem size of every integral type, negative or huge as it may be, as
    soon as the block size the occupancy query returns is positive; it is
    undefined exactly when that block size is zero.  The second component
    of the pair is always the queried block size. *)
Theorem X12_configuration_defined_iff_block_size_positive Size n :
  let block_size := block_size_with_maximal_occupancy 0 in
  representable size_t block_size ->
  (configuration_with_maximal_occupancy Size n = None <-> block_size = 0)
  /\ (forall config,
        configuration_with_maximal_occupancy Size n = Some config ->
        snd config = block_size /\ representable size_t (fst config)).
Proof.
  intros block_size Hb.
  unfold configuration_with_maximal_occupancy. fold block_size.
  unfold num_blocks_with_maximal_occupancy.
  destruct (Z.eq_dec block_size 0) as [E|E].
  - rewrite E, ceiling_division_by_zero. cbn [mbind option_bind].
    split; [tauto|]. intros config H. discriminate.
  - assert (0 < block_size) by (apply size_t_range in Hb; lia).
    rewrite ceiling_division_in_size_t by assumption.
    cbn [mbind option_bind]. split.
    + split; [discriminate | contradiction].
    + intros config [= <-]. cbn [fst snd]. split; [reflexivity|].
      apply convert_in_range.
Qed.

(** X8.  A negative problem size of a signed type narrower than [size_t] is
    not rejected by [configuration_with_maximal_occupancy]: it is read as a
    [size_t].  When [n <= - block_size] the ceiling is astronomical and the
    result is the occupancy maximum; when [- block_size < n < 0] the sum
    wraps around to less than [block_size] and the result is no block at
    all. *)
Theorem X8_negative_problem_size Size n :
  is_signed Size = true -> bits (width Size) < 64 ->
  representable Size n -> n < 0 ->
  let block_size := block_size_with_maximal_occupancy 0 in
  let max_blocks :=
    max_active_blocks (get_launch_function super_t) block_size 0 in
  representable size_t block_size -> 0 < block_size -> 0 <= max_blocks ->
  max_blocks * block_size <= 9223372036854775808 ->
  (n + block_size <= 0 ->
     configuration_with_maximal_occupancy Size n = Some (max_blocks, block_size))
  /\ (0 < n + block_size ->
     configuration_with_maximal_occupancy Size n = Some (0, block_size)).
Proof.
  intros Hsigned Hbits Hn Hneg block_size max_blocks Hbs Hb0 Hm0 Hfit.
  pose proof (proj1 (size_t_range block_size) Hbs) as Hbs'.
  assert (Hnlo : - 2147483648 <= n).
  { destruct Hn as [Hlo _]. revert Hlo.
    by_cases_on Size; try discriminate Hsigned; cbn in Hbits; try lia;
      unfold min_value; cbn; lia. }
  assert (Hconv : convert size_t block_size = block_size)
    by now apply convert_representable.
  assert (Hcn : convert size_t n = n + 18446744073709551616).
  { rewrite convert_size_t. Z.div_mod_to_equations. lia. }
  unfold configuration_with_maximal_occupancy. fold block_size.
  unfold num_blocks_with_maximal_occupancy.
  rewrite ceiling_division_in_size_t by assumption.
  cbn [mbind option_bind]. rewrite Hconv. fold max_blocks.
  rewrite larger_type_size_t by assumption. rewrite Hcn.
  rewrite (convert_representable size_t max_blocks)
    by (apply size_t_range; nia).
  split; intros Hcase.
  - (* no wrap-around: the quotient is at least [max_blocks] *)
    rewrite (Z.mod_small (n + 18446744073709551616 + (block_size - 1)))
      by lia.
    set (q := (n + 18446744073709551616 + (block_size - 1)) / block_size).
    assert (Hq : max_blocks <= q < 18446744073709551616).
    { subst q. split.
      - apply Z.div_le_lower_bound; [lia|]. nia.
      - apply Z.div_lt_upper_bound; nia. }
    rewrite (convert_representable size_t q) by (apply size_t_range; lia).
    rewrite Z.min_l by lia.
    rewrite (convert_representable size_t max_blocks)
      by (apply size_t_range; nia).
    reflexivity.
  - (* the sum wraps around to [n + block_size - 1 < block_size] *)
    assert (E : (n + 18446744073709551616 + (block_size - 1))
                mod 18446744073709551616 = n + block_size - 1).
    { Z.div_mod_to_equations. lia. }
    rewrite E, Z.div_small by lia.
    rewrite (convert_representable size_t 0) by (apply size_t_range; lia).
    rewrite Z.min_r by lia. reflexivity.
Qed.

(** X7.  Within the range where the arithmetic is exact,
    [num_blocks_with_maximal_occupancy] never asks for more blocks than
    there are work items nor than the occupancy maximum, it grows with the
    problem size, and for a problem size that is a multiple of the block
    size the ceiling is the exact quotient. *)
Theorem X7_num_blocks_is_monotone_and_bounded Size1 Size2 n n' block_size smem :
  0 <= n <= n' -> representable Size1 n' ->
  representable Size2 block_size -> 0 < block_size ->
  n' + (block_size - 1) <= max_value (type_of_sum Size1 Size2) ->
  let max_blocks :=
    max_active_blocks (get_launch_function super_t)
      (convert size_t block_size) smem in
  0 <= max_blocks <= max_value (larger_type Size1 Size2) ->
  exists r r',
    num_blocks_with_maximal_occupancy Size1 Size2 n block_size smem = Some r
    /\ num_blocks_with_maximal_occupancy Size1 Size2 n' block_size smem = Some r'
    /\ r <= r' /\ 0 <= r <= n /\ r <= max_blocks
    /\ (n mod block_size = 0 -> r = Z.min max_blocks (n / block_size)).
Proof.
  intros Hn Hn' Hb Hb0 Hsum max_blocks Hmax.
  assert (Hrep : representable Size1 n).
  { apply nonneg_representable. destruct Hn'. lia. }
  exists (Z.min max_blocks ((n + (block_size - 1)) / block_size)),
         (Z.min max_blocks ((n' + (block_size - 1)) / block_size)).
  split; [apply num_blocks_exact; try assumption; lia|].
  split; [apply num_blocks_exact; try assumption; lia|].
  pose proof (ceiling_le_dividend n block_size ltac:(lia) Hb0) as Hq.
  assert (Hmono : (n + (block_size - 1)) / block_size
                  <= (n' + (block_size - 1)) / block_size)
    by (apply Z.div_le_mono; lia).
  split; [lia|]. split; [lia|]. split; [lia|].
  intros Hmod. f_equal.
  apply Z.mod_divide in Hmod; [|lia]. destruct Hmod as [k ->].
  rewrite Z.div_mul by lia.
  replace (k * block_size + (block_size - 1))
    with ((block_size - 1) + k * block_size) by lia.
  rewrite Z.div_add by lia. rewrite Z.div_small by lia. lia.
Qed.

End ConfigurationPath.

Section LaunchPipeline.
Context {World F : Type}.
Context {closure : NullaryFunction World F}.
Context {arch : ArchQueries}.

Implicit Types (d : device World F) (f : F).

Ltac dev_simpl :=
  cbn [heap next_address available queue executed world fault synchronous trace
       set_heap set_allocator set_queue set_executed set_world set_fault log].

(** What the device executes for a by-value launch, whatever its outcome. *)
Lemma by_value_launch_executed f num_blocks block_size smem_size d :
  executed (drain (snd (launch closure_launcher_base_by_value f num_blocks
                          block_size smem_size d)))
  = executed (drain d)
    ++ [q_kernel (Submission (convert unsigned_int num_blocks)
                    (convert unsigned_int block_size)
                    (convert unsigned_int smem_size) (call_by_value f))].
Proof.
  rewrite by_value_launch_stages.
  set (d2 := log _ (log _ (set_queue _ d))).
  assert (Hexec : executed (drain d2)
                  = executed (drain d)
                    ++ [q_kernel (Submission (convert unsigned_int num_blocks)
                                    (convert unsigned_int block_size)
                                    (convert unsigned_int smem_size)
                                    (call_by_value f))]).
  { rewrite !drain_executed. unfold d2. dev_simpl. now rewrite app_assoc. }
  destruct (synchronous d); [|exact Hexec].
  destruct (fault (drain d2)); cbn [snd];
    rewrite (drain_idle (drain d2) (drain_queue d2)); exact Hexec.
Qed.

(** What the device executes for a by-pointer launch that returns
    normally. *)
Lemma by_pointer_launch_executed f num_blocks block_size smem_size d d' :
  launch closure_launcher_base_by_pointer f num_blocks block_size smem_size d
  = (ok tt, d') ->
  executed (drain d')
  = executed (drain d)
    ++ [q_kernel (Submission (convert unsigned_int num_blocks)
                    (convert unsigned_int block_size)
                    (convert unsigned_int smem_size)
                    (call_by_pointer (next_address d)));
        q_free (next_address d)].
Proof.
  intros H.
  destruct (sizeof (F := F) <=? available d) eqn:Hav.
  2: { rewrite by_pointer_launch_without_memory in H by assumption.
       discriminate. }
  destruct (by_pointer_launch_stages f num_blocks block_size smem_size d Hav)
    as (d3 & (_ & Hq & Hx & _ & _ & _ & _) & Hrun).
  rewrite Hrun in H. clear Hrun.
  destruct (synchronous d);
    [destruct (fault (drain d3)); [discriminate|] | ];
    unfold free in H; injection H as <-;
    rewrite !drain_executed; dev_simpl;
    rewrite ?drain_executed, ?drain_queue, Hx, Hq, <- !app_assoc; reflexivity.
Qed.

(** What the device executes for a launch through [closure_launcher] that
    returns normally: the kernel, on the entry point that
    [get_launch_function] names, followed by the release of the buffer when
    the closure goes by pointer. *)
Lemma launch_geometry_executed f num_blocks block_size smem_size d d' :
  launch_geometry f num_blocks block_size smem_size d = (ok tt, d') ->
  exists k rest,
    executed (drain d')
    = executed (drain d)
      ++ q_kernel (Submission (convert unsigned_int num_blocks)
                     (convert unsigned_int block_size)
                     (convert unsigned_int smem_size) k) :: rest
    /\ entry_of k = get_launch_function super_t
    /\ (k = call_by_value f /\ rest = []
        \/ k = call_by_pointer (next_address d)
           /\ rest = [q_free (next_address d)]).
Proof.
  unfold launch_geometry, super_t, launch_by_value.
  destruct (sizeof (F := F) <=? 256); cbn [closure_launcher_base]; intros H.
  - exists (call_by_value f), []. split; [|split; [reflexivity | now left]].
    pose proof (by_value_launch_executed f num_blocks block_size smem_size d) as E.
    rewrite H in E. exact E.
  - exists (call_by_pointer (next_address d)), [q_free (next_address d)].
    split; [|split; [reflexivity | now right]].
    now apply (by_pointer_launch_executed f).
Qed.

(** X11.  The entry point whose attributes configure a launch is the entry
    point launched: whenever [launch_closure] with an explicit geometry
    returns normally, the device has executed, after the work that was
    pending, one kernel with that geometry (modulo [2^32]) on the entry
    point [get_launch_function] names, followed only by the release of the
    closure's buffer when the closure goes by pointer; the three-argument
    overload launches with no dynamic shared memory. *)
Theorem X11_launched_entry_point_is_the_configured_one
    f num_blocks block_size smem_size d :
  (forall d',
     launch_closure_smem f num_blocks block_size smem_size d = (ok tt, d') ->
     exists k rest,
       executed (drain d')
       = executed (drain d)
         ++ q_kernel (Submission (num_blocks mod 4294967296)
                        (block_size mod 4294967296)
                        (smem_size mod 4294967296) k) :: rest
       /\ entry_of k = get_launch_function super_t
       /\ (rest = [] \/ rest = [q_free (next_address d)]))
  /\ (forall d',
       launch_closure_blocks f num_blocks block_size d = (ok tt, d') ->
       exists k rest,
         executed (drain d')
         = executed (drain d)
           ++ q_kernel (Submission (num_blocks mod 4294967296)
                          (block_size mod 4294967296) 0 k) :: rest
         /\ entry_of k = get_launch_function super_t).
Proof.
  split; intros d' H.
  - destruct (launch_geometry_executed _ _ _ _ _ _ H) as (k & rest & E & Hk & Hr).
    exists k, rest. split; [exact E|]. split; [exact Hk|].
    destruct Hr as [[_ ->]|[_ ->]]; auto.
  - destruct (launch_geometry_executed _ _ _ _ _ _ H) as (k & rest & E & Hk & _).
    exists k, rest. split; [exact E | exact Hk].
Qed.

(** A launch by problem size is a launch with the derived geometry and no
    dynamic shared memory. *)
Lemma launch_closure_by_size Size f n num_blocks block_size :
  configuration_with_maximal_occupancy Size n = Some (num_blocks, block_size) ->
  launch_closure Size f n = launch_geometry f num_blocks block_size 0.
Proof.
  intros H. unfold launch_closure, launch_n. now rewrite H.
Qed.

(** The derived configuration, when the arithmetic is exact. *)
Lemma configuration_exact Size n :
  let block_size := block_size_with_maximal_occupancy 0 in
  let max_blocks :=
    max_active_blocks (get_launch_function super_t) block_size 0 in
  representable Size n -> 0 <= n ->
  0 < block_size <= max_value unsigned_int ->
  n + (block_size - 1) <= max_value (type_of_sum Size size_t) ->
  0 <= max_blocks <= max_value unsigned_int ->
  configuration_with_maximal_occupancy Size n
  = Some (Z.min max_blocks ((n + (block_size - 1)) / block_size), block_size).
Proof.
  intros block_size max_blocks Hn Hn0 Hb Hsum Hmax.
  assert (Hbs : representable size_t block_size).
  { apply nonneg_representable. pose proof (max_value_size_t unsigned_int). lia. }
  assert (Hconv : convert size_t block_size = block_size)
    by now apply convert_representable.
  unfold configuration_with_maximal_occupancy. fold block_size.
  rewrite num_blocks_exact; try assumption; try lia.
  - cbn [mbind option_bind]. rewrite Hconv. reflexivity.
  - rewrite Hconv. fold max_blocks.
    pose proof (max_value_unsigned_int_larger Size). lia.
Qed.

(** X9.  The whole path of [launch_closure(f, n)].  When the arithmetic of
    the configuration is exact and the occupancy maximum and the block size
    fit [unsigned int], a launch that returns normally has made the device
    execute one kernel of [min (max_active_blocks, ceil (n / block_size))]
    blocks of [block_size] threads with no dynamic shared memory, on the
    entry point the occupancy was computed for; the grid covers [n] unless
    it is the occupancy maximum. *)
Theorem X9_launch_by_problem_size Size f n d d' :
  let block_size := block_size_with_maximal_occupancy 0 in
  let max_blocks :=
    max_active_blocks (get_launch_function super_t) block_size 0 in
  let num_blocks := Z.min max_blocks ((n + (block_size - 1)) / block_size) in
  representable Size n -> 0 <= n ->
  0 < block_size <= max_value unsigned_int ->
  n + (block_size - 1) <= max_value (type_of_sum Size size_t) ->
  0 <= max_blocks <= max_value unsigned_int ->
  launch_closure Size f n d = (ok tt, d') ->
  (exists k rest,
     executed (drain d')
     = executed (drain d)
       ++ q_kernel (Submission num_blocks block_size 0 k) :: rest
     /\ entry_of k = get_launch_function super_t)
  /\ (n <= num_blocks * block_size \/ num_blocks = max_blocks).
Proof.
  intros block_size max_blocks num_blocks Hn Hn0 Hb Hsum Hmax H.
  pose proof (ceiling_le_dividend n block_size Hn0 ltac:(lia)) as Hq.
  pose proof (ceiling_covers n block_size ltac:(lia)) as Hc.
  split.
  - rewrite (launch_closure_by_size Size f n num_blocks block_size) in H
      by (apply configuration_exact; assumption).
    destruct (launch_geometry_executed _ _ _ _ _ _ H) as (k & rest & E & Hk & _).
    exists k, rest. split; [|exact Hk].
    rewrite E.
    rewrite (convert_representable unsigned_int num_blocks)
      by (apply nonneg_representable; subst num_blocks; lia).
    rewrite (convert_representable unsigned_int block_size)
      by (apply nonneg_representable; lia).
    reflexivity.
  - subst num_blocks.
    destruct (Z.min_spec max_blocks ((n + (block_size - 1)) / block_size))
      as [[_ ->]|[_ ->]]; [now right | left; lia].
Qed.

(** A kernel with an empty grid runs no invocation. *)
Lemma run_kernel_empty_grid (mem : gmap Z (list Byte.byte)) b sm k (w : World) :
  run_kernel mem (Submission 0 b sm k) w = Some w.
Proof. reflexivity. Qed.

(** X10.  There is no early return for an empty problem:
    [launch_closure(f, 0)] goes through the whole launch (for a closure that
    goes by pointer, allocation, copy and free included) and submits a
    kernel with a grid of no block.  When it returns normally the device
    has executed that kernel, and no invocation has run: the data are what
    the pending work alone leaves. *)
Theorem X10_empty_problem_is_still_launched Size f d d' :
  let block_size := block_size_with_maximal_occupancy 0 in
  let max_blocks :=
    max_active_blocks (get_launch_function super_t) block_size 0 in
  0 < block_size <= max_value unsigned_int ->
  0 <= max_blocks <= max_value unsigned_int ->
  queue_allocated d = true ->
  launch_closure Size f 0 d = (ok tt, d') ->
  (exists k rest,
     executed (drain d')
     = executed (drain d) ++ q_kernel (Submission 0 block_size 0 k) :: rest
     /\ (k = call_by_value f /\ rest = []
         \/ k = call_by_pointer (next_address d)
            /\ rest = [q_free (next_address d)]))
  /\ world (drain d') = world (drain d).
Proof.
  intros block_size max_blocks Hb Hmax Hwf H.
  assert (Hcfg : configuration_with_maximal_occupancy Size 0
                 = Some (0, block_size)).
  { pose proof (configuration_exact Size 0) as E. cbv zeta in E.
    fold block_size max_blocks in E. rewrite E.
    - rewrite (Z.div_small (0 + (block_size - 1))) by lia.
      rewrite Z.min_r by lia. reflexivity.
    - apply nonneg_representable. pose proof (max_value_ge_127 Size). lia.
    - lia.
    - assumption.
    - pose proof (max_value_sum_r Size size_t).
      pose proof (max_value_size_t unsigned_int).
      change (max_value size_t) with 18446744073709551615 in *.
      change (max_value unsigned_int) with 4294967295 in *. lia.
    - assumption. }
  rewrite (launch_closure_by_size Size f 0 0 block_size Hcfg) in H.
  split.
  - destruct (launch_geometry_executed _ _ _ _ _ _ H) as (k & rest & E & _ & Hr).
    exists k, rest. split; [|exact Hr].
    rewrite E.
    rewrite (convert_representable unsigned_int block_size)
      by (apply nonneg_representable; lia).
    reflexivity.
  - unfold launch_geometry, super_t, launch_by_value in H.
    destruct (sizeof (F := F) <=? 256); cbn [closure_launcher_base] in H.
    + destruct (by_value_launch_outcome _ _ _ _ _ _ H) as (-> & _).
      unfold exec_entry. cbn. reflexivity.
    + destruct (by_pointer_launch_outcome _ _ _ _ _ _ Hwf H) as (-> & _).
      unfold exec_entry. cbn. reflexivity.
Qed.

End LaunchPipeline.

(* ===================================================================== *)
(** ** The further properties at sample launches *)
(* ===================================================================== *)

(** X1 for a one-byte closure on an idle device with the hook disabled. *)
Lemma X1_witness :
  let d := idle_device 0 false [Byte.x00; Byte.x00; Byte.x00; Byte.x00] in
  let outcome := launch (closure_launcher_base_by_value (closure := fill 0))
                   Byte.x2a 2 2 0 d in
  fst outcome = ok tt
  /\ queue (snd outcome) = queue d ++ [q_kernel (Submission 2 2 0 (call_by_value Byte.x2a))]
  /\ world (snd outcome) = world d.
Proof.
  intros d outcome.
  destruct (X1_by_value_launch_sequence (closure := fill 0) Byte.x2a 2 2 0 d)
    as (_ & _ & _ & _ & H).
  destruct H as (Hok & Hq & _ & _ & Hw & _); [reflexivity|].
  split; [exact Hok|]. split; [exact Hq | exact Hw].
Defined.

(** X3 for a closure of 257 bytes over four invocations. *)
Lemma X3_witness :
  let d := idle_device 1000 false [Byte.x00; Byte.x00; Byte.x00; Byte.x00] in
  let by_value := snd (launch (closure_launcher_base_by_value (closure := fill 256))
                         Byte.x2a 2 2 0 d) in
  let by_pointer := snd (launch (closure_launcher_base_by_pointer (closure := fill 256))
                           Byte.x2a 2 2 0 d) in
  world (drain (closure := fill 256) by_pointer)
  = world (drain (closure := fill 256) by_value).
Proof.
  intros d by_value by_pointer.
  refine (proj1 (X3_launchers_agree (closure := fill 256) Byte.x2a 2 2 0 d
                   by_value by_pointer _ _ _)); vm_compute; reflexivity.
Defined.

(** X4 for the same launch. *)
Lemma X4_witness :
  let d := idle_device 1000 false [Byte.x00; Byte.x00; Byte.x00; Byte.x00] in
  let d' := snd (launch (closure_launcher_base_by_pointer (closure := fill 256))
                   Byte.x2a 2 2 0 d) in
  heap (drain (closure := fill 256) d') = heap (drain (closure := fill 256) d)
  /\ available (drain (closure := fill 256) d')
     = available (drain (closure := fill 256) d).
Proof.
  intros d d'.
  apply (X4_by_pointer_launch_is_balanced (closure := fill 256) Byte.x2a 2 2 0 d d');
    vm_compute; reflexivity.
Defined.

(** X5 for a closure of 257 bytes whose invocation faults (the output range
    is empty), in diagnostic mode. *)
Lemma X5_witness :
  let d := idle_device (F := Byte.byte) 1000 true [] in
  let d' := snd (launch (closure_launcher_base_by_pointer (closure := fill 256))
                   Byte.x2a 1 1 0 d) in
  queue d' = []
  /\ heap d' !! 4096 = Some (to_bytes (NullaryFunction := fill 256) Byte.x2a).
Proof.
  intros d d'.
  destruct (X5_hook_failure_leaks_buffer (closure := fill 256) Byte.x2a 1 1 0 d d'
              "launch_closure_by_pointer") as (_ & Hq & Hh & _).
  - reflexivity.
  - vm_compute. reflexivity.
  - split; [exact Hq | exact Hh].
Defined.

(** X6 on a device with too little memory and the hook disabled. *)
Lemma X6_witness :
  let d := idle_device (F := Byte.byte) 100 false [] in
  let r := fst (launch (closure_launcher_base_by_pointer (closure := fill 256))
                  Byte.x2a 1 1 0 d) in
  r = ok tt \/ r = raise OutOfDeviceMemory.
Proof.
  intros d r.
  refine (proj2 (proj2 (X6_by_pointer_launch_outcomes (closure := fill 256)
                          Byte.x2a 1 1 0 d)) _).
  reflexivity.
Defined.

(** X7 at the scenario: a thousand and a million work items in blocks of
    256. *)
Lemma X7_witness :
  exists r r',
    num_blocks_with_maximal_occupancy (closure := fill 0) (arch := scenario_arch)
      int size_t 1000 256 0 = Some r
    /\ num_blocks_with_maximal_occupancy (closure := fill 0) (arch := scenario_arch)
         int size_t 1000000 256 0 = Some r'
    /\ r <= r'.
Proof.
  destruct (X7_num_blocks_is_monotone_and_bounded
              (closure := fill 0) (arch := scenario_arch)
              int size_t 1000 1000000 256 0)
    as (r & r' & H1 & H2 & Hle & _); [by_evaluation ..|].
  exists r, r'. split; [exact H1|]. split; [exact H2 | exact Hle].
Defined.

(** X8 at the scenario: [n = -5000] as an [int]. *)
Lemma X8_witness :
  configuration_with_maximal_occupancy (closure := fill 0) (arch := scenario_arch)
    int (-5000) = Some (16, 1024).
Proof.
  refine (proj1 (X8_negative_problem_size (closure := fill 0) (arch := scenario_arch)
                   int (-5000) _ _ _ _ _ _ _ _) _); by_evaluation.
Defined.

(** X9 at the scenario: a million work items. *)
Lemma X9_witness :
  let d := idle_device 1000 false [Byte.x00; Byte.x00; Byte.x00; Byte.x00] in
  let d' := snd (launch_closure (closure := fill 0) (arch := scenario_arch)
                   int Byte.x2a 1000000 d) in
  exists k rest,
    executed (drain (closure := fill 0) d')
    = executed (drain (closure := fill 0) d)
      ++ q_kernel (Submission 16 1024 0 k) :: rest
    /\ entry_of k = entry_by_value.
Proof.
  intros d d'.
  refine (proj1 (X9_launch_by_problem_size (closure := fill 0) (arch := scenario_arch)
                   int Byte.x2a 1000000 d d' _ _ _ _ _ _)); by_evaluation.
Defined.

(** X10 at the scenario, for a closure of 257 bytes. *)
Lemma X10_witness :
  let d := idle_device 1000 false [Byte.x00; Byte.x00; Byte.x00; Byte.x00] in
  let d' := snd (launch_closure (closure := fill 256) (arch := scenario_arch)
                   int Byte.x2a 0 d) in
  world (drain (closure := fill 256) d') = world (drain (closure := fill 256) d).
Proof.
  intros d d'.
  refine (proj2 (X10_empty_problem_is_still_launched
                   (closure := fill 256) (arch := scenario_arch)
                   int Byte.x2a d d' _ _ _ _)); by_evaluation.
Defined.

(** X11 for a closure of 257 bytes. *)
Lemma X11_witness :
  let d := idle_device 1000 false [Byte.x00; Byte.x00; Byte.x00; Byte.x00] in
  let d' := snd (launch_closure_blocks (closure := fill 256) Byte.x2a 2 2 d) in
  exists k rest,
    executed (drain (closure := fill 256) d')
    = executed (drain (closure := fill 256) d)
      ++ q_kernel (Submission (2 mod 4294967296) (2 mod 4294967296) 0 k) :: rest
    /\ entry_of k = get_launch_function (super_t (closure := fill 256)).
Proof.
  intros d d'.
  refine (proj2 (X11_launched_entry_point_is_the_configured_one
                   (closure := fill 256) Byte.x2a 2 2 0 d) d' _).
  vm_compute. reflexivity.
Defined.

(** X12 at the scenario. *)
Lemma X12_witness :
  configuration_with_maximal_occupancy (closure := fill 0) (arch := scenario_arch)
    int (-7) = None
  <-> block_size_with_maximal_occupancy (closure := fill 0) (arch := scenario_arch) 0
      = 0.
Proof.
  refine (proj1 (X12_configuration_defined_iff_block_size_positive
                   (closure := fill 0) (arch := scenario_arch) int (-7) _)).
  by_evaluation.
Defined.
